(** * Operon: batched tree interpreter, coefficient optimizer, fitness evaluators

    A shallow embedding of [core/eval.hpp] ([MinMax], [LimitToRange],
    [Evaluate], [ParameterizedEvaluation], [Optimize]) and of
    [operators/evaluator.hpp] ([NormalizedMeanSquaredErrorEvaluator],
    [RSquaredEvaluator]), and of [operators/crossover.cpp]
    ([SelectRandomBranch], [SubtreeCrossover]).

    - [Operon::Scalar] is IEEE-754 binary64, modelled by the Standard
      Library's [spec_float] with [prec = 53] and [emax = 1024]; every
      arithmetic operation rounds to nearest even as the hardware does.
    - [Evaluate<T>] is embedded at [T = Operon::Scalar], the instantiation
      the evaluators call.
    - Out-of-range accesses (undefined behaviour or an Eigen assertion in the
      C++) make the embedded function return [None].
    - Reads of the parameter buffer and of dataset columns are recorded in a
      log, so that statements about which slots are read can be made. *)

From Stdlib Require Import ZArith List Bool Arith Lia Permutation.
From Stdlib Require Import Floats.SpecFloat.
Import ListNotations.

Module Operon.

(** ** Scalars *)

Definition prec : Z := 53.
Definition emax : Z := 1024.

Definition Scalar : Type := spec_float.

Definition Scalar_of_Z (z : Z) : Scalar := binary_normalize prec emax z 0 false.

Definition add : Scalar -> Scalar -> Scalar := SFadd prec emax.
Definition sub : Scalar -> Scalar -> Scalar := SFsub prec emax.
Definition mul : Scalar -> Scalar -> Scalar := SFmul prec emax.
Definition div : Scalar -> Scalar -> Scalar := SFdiv prec emax.
Definition sqrt : Scalar -> Scalar := SFsqrt prec emax.

(** [a < b] on doubles; false as soon as one side is NaN. *)
Definition lt (a b : Scalar) : bool := SFltb a b.

(** [ceres::IsFinite] and [std::isfinite]. *)
Definition IsFinite (v : Scalar) : bool :=
  match v with
  | S754_zero _ | S754_finite _ _ _ => true
  | S754_infinity _ | S754_nan => false
  end.

(** Modelled from the spec: [Operon::Numeric::Max<T>] and
    [Operon::Numeric::Min<T>] are declared in [common.hpp], which is not among
    the sources.  The spec calls them the largest representable scalar and
    [MinT]; they are taken as [std::numeric_limits<double>::max()] and
    [std::numeric_limits<double>::lowest()]. *)
Definition Numeric_Max : Scalar := SFmax_float prec emax.
Definition Numeric_Min : Scalar := SFopp Numeric_Max.

(** The elementary functions of the C library and of Eigen that the Standard
    Library does not define.  They are parameters of the interpreter. *)
Record Libm : Type := {
  libm_log : Scalar -> Scalar;
  libm_exp : Scalar -> Scalar;
  libm_sin : Scalar -> Scalar;
  libm_cos : Scalar -> Scalar;
  libm_tan : Scalar -> Scalar;
  libm_cbrt : Scalar -> Scalar
}.

(** ** MinMax and LimitToRange *)

Definition MinMax_step (acc : Scalar * Scalar) (v : Scalar) : Scalar * Scalar :=
  let (min, max) := acc in
  if negb (IsFinite v) then (min, max)
  else
    let min := if lt v min then v else min in
    let max := if lt max v then v else max in
    (min, max).

Definition MinMax (values : list Scalar) : Scalar * Scalar :=
  fold_left MinMax_step values (Numeric_Max, Numeric_Min).

(** [std::clamp(v, lo, hi)]. *)
Definition clamp (v lo hi : Scalar) : Scalar :=
  if lt v lo then lo else if lt hi v then hi else v.

Definition LimitToRange (values : list Scalar) (min max : Scalar) : list Scalar :=
  let mid := div (add min max) (Scalar_of_Z 2) in
  map (fun v => if IsFinite v then clamp v min max else mid) values.

(** ** Trees, ranges, datasets *)

(** Modelled from the spec: [NodeType] is declared in a header that is not
    among the sources; these are the fourteen tags of the spec's closed set,
    which are also the cases of the [switch] in [Evaluate].  With them the
    [default] case of that [switch] is unreachable.  [Variable_] stands for
    [Variable]. *)
Module NodeType.
Inductive t : Set :=
  | Add | Mul | Sub | Div
  | Log | Exp | Sin | Cos | Tan | Sqrt | Cbrt | Square
  | Constant | Variable_.
End NodeType.

(** Modelled from the spec: [Node] is declared in a header that is not among
    the sources.  The fields are the ones the spec lists; [Type_] stands for
    [Type]. *)
Record Node : Type := {
  Type_ : NodeType.t;
  Arity : nat;
  Length : nat;
  Depth : nat;
  Value : Scalar;
  HashValue : N
}.

(** Modelled from the spec: [Node::IsConstant] and [Node::IsVariable], tests
    on the tag. *)
Definition IsConstant (s : Node) : bool :=
  match Type_ s with NodeType.Constant => true | _ => false end.

Definition IsVariable (s : Node) : bool :=
  match Type_ s with NodeType.Variable_ => true | _ => false end.

(** Modelled from the spec: [Tree] ([tree.hpp], not among the sources), the
    nodes in postfix order. *)
Record Tree : Type := { Nodes : list Node }.

(** Modelled from the spec: [Range], the rows [Start, Start + Size). *)
Record Range : Type := { Start : nat; Size : nat }.

(** Modelled from the spec: [Dataset] ([dataset.hpp], not among the sources).
    [Values] is column-major, one list per column; [GetIndex] gives the column
    of the variable with a given hash. *)
Record Dataset : Type := {
  Values : list (list Scalar);
  GetIndex : N -> nat
}.

(** Modelled from the spec: [Tree::GetCoefficients] (in [tree.cpp], not among
    the sources): one entry per Constant node and one per Variable node (the
    variable's weight), in traversal order. *)
Definition GetCoefficients (tree : Tree) : list Scalar :=
  map Value (filter (fun s => IsConstant s || IsVariable s) (Nodes tree)).

(** Modelled from the spec: [Tree::SetCoefficients] (in [tree.cpp], not among
    the sources): writes the coefficient vector back into the Constant and
    Variable nodes in the same traversal order.  Where the vector is too
    short (never the case in [Optimize], whose buffer keeps the size of the
    extracted vector) the remaining nodes keep their value. *)
Fixpoint SetCoefficients_nodes (nodes : list Node) (coefficients : list Scalar)
  : list Node :=
  match nodes with
  | [] => []
  | s :: rest =>
      if IsConstant s || IsVariable s then
        match coefficients with
        | c :: cs =>
            {| Type_ := Type_ s; Arity := Arity s; Length := Length s;
               Depth := Depth s; Value := c; HashValue := HashValue s |}
            :: SetCoefficients_nodes rest cs
        | [] => s :: SetCoefficients_nodes rest []
        end
      else s :: SetCoefficients_nodes rest coefficients
  end.

Definition SetCoefficients (tree : Tree) (coefficients : list Scalar) : Tree :=
  {| Nodes := SetCoefficients_nodes (Nodes tree) coefficients |}.

(** ** Effects: failure and the log of reads *)

Inductive Event : Type :=
  | ReadParameter (node : nat) (slot : nat)
  | ReadColumn (node : nat) (column : nat) (offset : nat) (count : nat).

Definition Eff (A : Type) : Type := option (A * list Event).

Definition ret {A} (a : A) : Eff A := Some (a, []).

Definition bind {A B} (c : Eff A) (k : A -> Eff B) : Eff B :=
  match c with
  | None => None
  | Some (a, l1) =>
      match k a with
      | None => None
      | Some (b, l2) => Some (b, l1 ++ l2)
      end
  end.

Definition tell (e : Event) : Eff unit := Some (tt, [e]).

Definition lift {A} (o : option A) : Eff A :=
  match o with Some a => ret a | None => None end.

Declare Scope eff_scope.
Delimit Scope eff_scope with eff.
Notation "x <- c ;; k" := (bind c (fun x => k))
  (at level 61, c at next level, right associativity) : eff_scope.
Notation "' p <- c ;; k" := (bind c (fun x => let p := x in k))
  (at level 61, p pattern, c at next level, right associativity) : eff_scope.
Local Open Scope eff_scope.

Definition value {A} (c : Eff A) : option A := option_map fst c.
Definition reads {A} (c : Eff A) : option (list Event) := option_map snd c.

(** ** Index arithmetic and containers *)

Definition BATCHSIZE : nat := 64.

(** Subtraction on [size_t]. *)
Definition size_t_sub (a b : Z) : Z := (a - b) mod 2 ^ 64.

(** [v[i]] for an index computed on [size_t]; out of range is undefined. *)
Definition at_ {A} (v : list A) (i : Z) : option A :=
  if (0 <=? i)%Z && (i <? Z.of_nat (length v))%Z then nth_error v (Z.to_nat i)
  else None.

(** [v[i] = x] for [i] in range; the loops below only write at the index of
    the node they visit. *)
Fixpoint set_nth {A} (v : list A) (i : nat) (x : A) : list A :=
  match v, i with
  | [], _ => []
  | _ :: rest, O => x :: rest
  | y :: rest, S i => y :: set_nth rest i x
  end.

(** [v.segment(offset, count)], undefined when it leaves the vector. *)
Definition segment {A} (v : list A) (offset count : nat) : option (list A) :=
  if offset + count <=? length v then Some (firstn count (skipn offset v))
  else None.

(** [v.segment(offset, |s|) = s]. *)
Definition assign_segment {A} (v : list A) (offset : nat) (s : list A)
  : option (list A) :=
  if offset + length s <=? length v then
    Some (firstn offset v ++ s ++ skipn (offset + length s) v)
  else None.

Fixpoint map2 {A B C} (f : A -> B -> C) (xs : list A) (ys : list B) : list C :=
  match xs, ys with
  | x :: xs, y :: ys => f x y :: map2 f xs ys
  | _, _ => []
  end.

(** [for (size_t i = first; i < first + |rest|; ++i) st = body(i, nodes[i], st)]. *)
Fixpoint for_nodes {St} (body : nat -> Node -> St -> Eff St)
    (i : nat) (rest : list Node) (st : St) : Eff St :=
  match rest with
  | [] => ret st
  | s :: rest => st <- body i s st ;; for_nodes body (S i) rest st
  end.

(** The values [row] takes in [for (row = 0; row < numRows; row += BATCHSIZE)]. *)
Definition batch_rows (numRows : nat) : list nat :=
  map (fun k => k * BATCHSIZE) (seq 0 ((numRows + (BATCHSIZE - 1)) / BATCHSIZE)).

Fixpoint for_rows {St} (body : nat -> St -> Eff St) (rows : list nat) (st : St)
  : Eff St :=
  match rows with
  | [] => ret st
  | row :: rows => st <- body row st ;; for_rows body rows st
  end.

(** ** The batched interpreter *)

Definition Column : Type := list Scalar.
Definition Matrix : Type := list Column.

Section Interpreter.

Variable libm : Libm.

(** What the scratch matrix holds before anything is written to it,
    by row and column: [Eigen::Array] does not initialise its storage. *)
Variable uninitialized : nat -> nat -> Scalar.

Definition new_matrix (cols : nat) : Matrix :=
  map (fun c => map (fun r => uninitialized r c) (seq 0 BATCHSIZE)) (seq 0 cols).

(** [m.col(c)] *)
Definition col (m : Matrix) (c : Z) : Eff Column := lift (at_ m c).

(** [parameters[idx]] *)
Definition read_parameter (node : nat) (parameters : list Scalar) (idx : nat)
  : Eff Scalar :=
  _ <- tell (ReadParameter node idx) ;;
  lift (nth_error parameters idx).

(** Body of the setup loop; the state is [(m, indices, idx)]. *)
Definition setup_node (dataset : Dataset) (parameters : option (list Scalar))
    (i : nat) (s : Node) (st : Matrix * list nat * nat)
  : Eff (Matrix * list nat * nat) :=
  let '(m, indices, idx) := st in
  if IsConstant s then
    v <- match parameters with
         | None => ret (Value s)
         | Some p => read_parameter i p idx
         end ;;
    ret (set_nth m i (repeat v BATCHSIZE), indices, S idx)
  else if IsVariable s then
    ret (m, set_nth indices i (GetIndex dataset (HashValue s)), S idx)
  else ret (m, indices, idx).

(** [m.col(c1) op m.col(c2)] with [c1 = i - 1], [c2 = c1 - 1 - nodes[c1].Length]. *)
Definition binary (op : Scalar -> Scalar -> Scalar) (nodes : list Node)
    (m : Matrix) (i : nat) : Eff Column :=
  let c1 := size_t_sub (Z.of_nat i) 1 in
  n1 <- lift (at_ nodes c1) ;;
  let c2 := size_t_sub (size_t_sub c1 1) (Z.of_nat (Length n1)) in
  a <- col m c1 ;;
  b <- col m c2 ;;
  ret (map2 op a b).

(** [m.col(i - 1).f()] *)
Definition unary (f : Scalar -> Scalar) (m : Matrix) (i : nat) : Eff Column :=
  a <- col m (size_t_sub (Z.of_nat i) 1) ;;
  ret (map f a).

(** Body of the node loop of one batch; the state is [(m, idx)]. *)
Definition eval_node (nodes : list Node) (dataset : Dataset) (range : Range)
    (parameters : option (list Scalar)) (indices : list nat)
    (row remainingRows : nat) (i : nat) (s : Node) (st : Matrix * nat)
  : Eff (Matrix * nat) :=
  let '(m, idx) := st in
  match Type_ s with
  | NodeType.Add => r <- binary add nodes m i ;; ret (set_nth m i r, idx)
  | NodeType.Mul => r <- binary mul nodes m i ;; ret (set_nth m i r, idx)
  | NodeType.Sub => r <- binary sub nodes m i ;; ret (set_nth m i r, idx)
  | NodeType.Div => r <- binary div nodes m i ;; ret (set_nth m i r, idx)
  | NodeType.Log => r <- unary (libm_log libm) m i ;; ret (set_nth m i r, idx)
  | NodeType.Exp => r <- unary (libm_exp libm) m i ;; ret (set_nth m i r, idx)
  | NodeType.Sin => r <- unary (libm_sin libm) m i ;; ret (set_nth m i r, idx)
  | NodeType.Cos => r <- unary (libm_cos libm) m i ;; ret (set_nth m i r, idx)
  | NodeType.Tan => r <- unary (libm_tan libm) m i ;; ret (set_nth m i r, idx)
  | NodeType.Sqrt => r <- unary sqrt m i ;; ret (set_nth m i r, idx)
  | NodeType.Cbrt => r <- unary (libm_cbrt libm) m i ;; ret (set_nth m i r, idx)
  | NodeType.Square => r <- unary (fun v => mul v v) m i ;; ret (set_nth m i r, idx)
  | NodeType.Constant => ret (m, S idx)
  | NodeType.Variable_ =>
      ' (w, idx) <- match parameters with
                    | None => ret (Value s, idx)
                    | Some p => w <- read_parameter i p idx ;; ret (w, S idx)
                    end ;;
      k <- lift (nth_error indices i) ;;
      column <- lift (nth_error (Values dataset) k) ;;
      _ <- tell (ReadColumn i k (Start range + row) remainingRows) ;;
      seg <- lift (segment column (Start range + row) remainingRows) ;;
      r <- lift (nth_error m i) ;;
      r <- lift (assign_segment r 0 (map (mul w) seg)) ;;
      ret (set_nth m i r, idx)
  end.

(** The node loop of the batch that starts at [row]. *)
Definition batch_nodes (nodes : list Node) (dataset : Dataset) (range : Range)
    (parameters : option (list Scalar)) (indices : list nat)
    (row remainingRows : nat) (m : Matrix) : Eff (Matrix * nat) :=
  let idx := 0 in
  for_nodes (eval_node nodes dataset range parameters indices row remainingRows)
    0 nodes (m, idx).

(** Body of the batch loop; the state is [(m, result)]. *)
Definition batch (nodes : list Node) (dataset : Dataset) (range : Range)
    (parameters : option (list Scalar)) (indices : list nat) (numRows : nat)
    (row : nat) (st : Matrix * list Scalar) : Eff (Matrix * list Scalar) :=
  let '(m, result) := st in
  let remainingRows := Nat.min BATCHSIZE (numRows - row) in
  ' (m, _) <- batch_nodes nodes dataset range parameters indices row
                remainingRows m ;;
  lastCol <- col m (size_t_sub (Z.of_nat (length nodes)) 1) ;;
  seg <- lift (segment lastCol 0 remainingRows) ;;
  result <- lift (assign_segment result row seg) ;;
  ret (m, result).

(** The overload of [Evaluate] that writes into the caller's span [result];
    it returns the content of the span when the call ends. *)
Definition Evaluate_span (tree : Tree) (dataset : Dataset) (range : Range)
    (parameters : option (list Scalar)) (result : list Scalar)
  : Eff (list Scalar) :=
  let nodes := Nodes tree in
  let m := new_matrix (length nodes) in
  let indices := repeat 0 (length nodes) in
  let idx := 0 in
  ' (m, indices, _) <- for_nodes (setup_node dataset parameters) 0 nodes
                         (m, indices, idx) ;;
  _ <- col m (size_t_sub (Z.of_nat (length nodes)) 1) ;;
  let numRows := Size range in
  ' (_, result) <- for_rows (batch nodes dataset range parameters indices numRows)
                     (batch_rows numRows) (m, result) ;;
  let (min, max) := MinMax result in
  ret (LimitToRange result min max).

(** The overload of [Evaluate] that returns a vector, with its log of reads. *)
Definition Evaluate_log (tree : Tree) (dataset : Dataset) (range : Range)
    (parameters : option (list Scalar)) : Eff (list Scalar) :=
  let result := repeat (Scalar_of_Z 0) (Size range) in
  Evaluate_span tree dataset range parameters result.

Definition Evaluate (tree : Tree) (dataset : Dataset) (range : Range)
    (parameters : option (list Scalar)) : option (list Scalar) :=
  value (Evaluate_log tree dataset range parameters).

End Interpreter.

(** ** The residual functor and the coefficient optimizer *)

Record ParameterizedEvaluation : Type := {
  tree_ref : Tree;
  dataset_ref : Dataset;
  target_ref : list Scalar;
  range : Range
}.

(** [ceres::LinearSolverType] *)
Inductive LinearSolverType : Set :=
  | DENSE_NORMAL_CHOLESKY | DENSE_QR | SPARSE_NORMAL_CHOLESKY
  | DENSE_SCHUR | SPARSE_SCHUR | ITERATIVE_SCHUR | CGNR.

(** The fields of [ceres::Solver::Options] that [Optimize] sets. *)
Record SolverOptions : Type := {
  max_num_iterations : Z;
  linear_solver_type : LinearSolverType;
  minimizer_progress_to_stdout : bool;
  num_threads : Z
}.

(** [DynamicAutoDiffCostFunction] or [DynamicNumericDiffCostFunction] over the
    functor, with its single parameter block and its number of residuals. *)
Record CostFunction : Type := {
  functor : ParameterizedEvaluation;
  autodiff_ : bool;
  parameter_block_size : nat;
  num_residuals : nat
}.

(** [ceres::Problem] with its one residual block: cost function, no loss
    function, and the parameter block [coef.data()]. *)
Record ceres_Problem : Type := {
  cost_function : CostFunction;
  parameter_block : list Scalar
}.

(** Conversion of a [size_t] to [int] (two's complement, 32 bits). *)
Definition int_of_size_t (x : Z) : Z :=
  let y := (x mod 2 ^ 32)%Z in
  if (y <? 2 ^ 31)%Z then y else (y - 2 ^ 32)%Z.

Section Optimizer.

Variable libm : Libm.
Variable uninitialized : nat -> nat -> Scalar.

(** [ceres::Solver::Summary], its default value, [summary.iterations.size()],
    and [ceres::Solve], which returns the summary and the content of the
    parameter block when it ends. *)
Variable Summary : Type.
Variable default_summary : Summary.
Variable iterations_size : Summary -> nat.
Variable Solve : SolverOptions -> ceres_Problem -> Summary * list Scalar.

(** [ParameterizedEvaluation::operator()] at [T = Operon::Scalar]:
    the content of [residuals] when it ends. *)
Definition ParameterizedEvaluation_call (self : ParameterizedEvaluation)
    (parameters : list Scalar) (residuals : list Scalar)
  : option (list Scalar) :=
  match segment residuals 0 (Size (range self)) with
  | None => None
  | Some res =>
      match value (Evaluate_span libm uninitialized (tree_ref self)
                     (dataset_ref self) (range self) (Some parameters) res) with
      | None => None
      | Some resMap =>
          match segment (target_ref self) 0 (Size (range self)) with
          | None => None
          | Some targetMap => Some (map2 sub resMap targetMap)
          end
      end
  end.

(** What [Optimize] does besides returning, in order. *)
Inductive OptimizeEvent : Type :=
  | Print_x_0 (coef : list Scalar)
  | NewCostFunction (costFunction : CostFunction)
  | CallSolve (options : SolverOptions) (problem : ceres_Problem)
  | PrintBriefReport (summary : Summary)
  | Print_x_final (coef : list Scalar).

Definition Optimize_options (iterations : N) (report : bool) : SolverOptions :=
  {| max_num_iterations := int_of_size_t (size_t_sub (Z.of_N iterations) 1);
     linear_solver_type := DENSE_QR;
     minimizer_progress_to_stdout := report;
     num_threads := 1 |}.

(** [Optimize<autodiff>]: the summary, the tree when the call ends, and the
    events of the call. *)
Definition Optimize (autodiff : bool) (tree : Tree) (dataset : Dataset)
    (targetValues : list Scalar) (range : Range) (iterations : N)
    (writeCoefficients report : bool)
  : Summary * Tree * list OptimizeEvent :=
  let summary := default_summary in
  let coef := GetCoefficients tree in
  match coef with
  | [] => (summary, tree, [])
  | _ :: _ =>
      let log1 := if report then [Print_x_0 coef] else [] in
      let eval := {| tree_ref := tree; dataset_ref := dataset;
                     target_ref := targetValues; range := range |} in
      let costFunction := {| functor := eval; autodiff_ := autodiff;
                             parameter_block_size := length coef;
                             num_residuals := Size range |} in
      let problem := {| cost_function := costFunction;
                        parameter_block := coef |} in
      let options := Optimize_options iterations report in
      let (summary, coef) := Solve options problem in
      let log2 := [NewCostFunction costFunction; CallSolve options problem] in
      let log3 := if report then [PrintBriefReport summary; Print_x_final coef]
                  else [] in
      let tree := if writeCoefficients then SetCoefficients tree coef
                  else tree in
      (summary, tree, log1 ++ log2 ++ log3)
  end.

Definition OptimizeAutodiff := Optimize true.
Definition OptimizeNumeric := Optimize false.

(** ** The fitness evaluators *)

(** Modelled from the spec: [Problem], the individual and [EvaluatorBase] are
    declared in headers that are not among the sources; the fields are the
    ones [evaluator.hpp] uses. *)
Record Problem : Type := {
  GetDataset : Dataset;
  TrainingRange : Range;
  TargetVariable : N
}.

Record Individual : Type := { Genotype : Tree }.

Record EvaluatorBase : Type := {
  problem : Problem;
  iterations : N;
  fitnessEvaluations : nat;
  localEvaluations : nat
}.

(** Modelled from the spec: [Dataset::GetValues(hash)], the column of the
    variable with that hash. *)
Definition GetValues (dataset : Dataset) (hash : N) : option (list Scalar) :=
  nth_error (Values dataset) (GetIndex dataset hash).

(** [core/metrics.hpp] is not among the sources: the two metrics are
    parameters. *)
Variable NormalizedMeanSquaredError : list Scalar -> list Scalar -> Scalar.
Variable RSquared : list Scalar -> list Scalar -> Scalar.

(** The part the two evaluators share: count the call, take the target
    values, optimize the coefficients when [iterations > 0], evaluate. *)
Definition estimate (self : EvaluatorBase) (ind : Individual)
  : option (list Scalar * list Scalar * EvaluatorBase * Individual) :=
  let self := {| problem := problem self; iterations := iterations self;
                 fitnessEvaluations := S (fitnessEvaluations self);
                 localEvaluations := localEvaluations self |} in
  let problem := problem self in
  let dataset := GetDataset problem in
  let genotype := Genotype ind in
  let trainingRange := TrainingRange problem in
  match GetValues dataset (TargetVariable problem) with
  | None => None
  | Some column =>
      match segment column (Start trainingRange) (Size trainingRange) with
      | None => None
      | Some targetValues =>
          let '(self, genotype) :=
            if (0 <? iterations self)%N then
              let '(summary, genotype, _) :=
                OptimizeAutodiff genotype dataset targetValues trainingRange
                  (iterations self) true false in
              ({| problem := problem; iterations := iterations self;
                  fitnessEvaluations := fitnessEvaluations self;
                  localEvaluations :=
                    localEvaluations self + iterations_size summary |},
               genotype)
            else (self, genotype) in
          match Evaluate libm uninitialized genotype dataset trainingRange None with
          | None => None
          | Some estimatedValues =>
              Some (estimatedValues, targetValues, self,
                    {| Genotype := genotype |})
          end
      end
  end.

(** [NormalizedMeanSquaredErrorEvaluator::operator()]: the fitness, the
    evaluator and the individual when the call ends. *)
Definition NormalizedMeanSquaredErrorEvaluator_call (self : EvaluatorBase)
    (ind : Individual) : option (Scalar * EvaluatorBase * Individual) :=
  match estimate self ind with
  | None => None
  | Some (estimatedValues, targetValues, self, ind) =>
      let nmse := NormalizedMeanSquaredError estimatedValues targetValues in
      let nmse := if negb (IsFinite nmse) then Numeric_Max else nmse in
      Some (nmse, self, ind)
  end.

Definition LowerBound : Scalar := Scalar_of_Z 0.
Definition UpperBound : Scalar := Scalar_of_Z 1.

(** [RSquaredEvaluator::operator()].  The value of [std::clamp] is not
    assigned to anything in the source, hence the unused binding. *)
Definition RSquaredEvaluator_call (self : EvaluatorBase) (ind : Individual)
  : option (Scalar * EvaluatorBase * Individual) :=
  match estimate self ind with
  | None => None
  | Some (estimatedValues, targetValues, self, ind) =>
      let r2 := RSquared estimatedValues targetValues in
      let r2 := if negb (IsFinite r2) then Scalar_of_Z 0 else r2 in
      let _ := clamp r2 LowerBound UpperBound in
      Some (add (sub UpperBound r2) LowerBound, self, ind)
  end.

End Optimizer.

(** ** Concrete trees and datasets *)

Module Examples.

Definition constant (v : Scalar) : Node :=
  {| Type_ := NodeType.Constant; Arity := 0; Length := 0; Depth := 1;
     Value := v; HashValue := 0 |}.

Definition variable (hash : N) (weight : Scalar) : Node :=
  {| Type_ := NodeType.Variable_; Arity := 0; Length := 0; Depth := 1;
     Value := weight; HashValue := hash |}.

(** A binary operator over two leaves. *)
Definition operator2 (type : NodeType.t) : Node :=
  {| Type_ := type; Arity := 2; Length := 2; Depth := 2;
     Value := Scalar_of_Z 1; HashValue := 0 |}.

Definition x : N := 0.
Definition y : N := 1.

(** Two columns, found by hash: [x = [5, 5, 5]] and [y = [1, 2, 3]]. *)
Definition xy : Dataset :=
  {| Values := [map Scalar_of_Z [5; 5; 5]; map Scalar_of_Z [1; 2; 3]]%Z;
     GetIndex := N.to_nat |}.

(** [Sub(Variable(x, 1), Variable(y, 1))]: the first operand sits at [i - 1],
    next to the operator, the second one before it. *)
Definition x_minus_y : Tree :=
  {| Nodes := [variable y (Scalar_of_Z 1); variable x (Scalar_of_Z 1);
               operator2 NodeType.Sub] |}.

(** The same three nodes with the two leaves exchanged. *)
Definition y_minus_x : Tree :=
  {| Nodes := [variable x (Scalar_of_Z 1); variable y (Scalar_of_Z 1);
               operator2 NodeType.Sub] |}.

(** One column [x = [3 * 2^1021, 2^1023]], both finite. *)
Definition large : Dataset :=
  {| Values := [[Scalar_of_Z (3 * 2 ^ 1021); Scalar_of_Z (2 ^ 1023)]]%Z;
     GetIndex := N.to_nat |}.

(** [Add(Variable(x, 1), Variable(x, 1))] *)
Definition x_plus_x : Tree :=
  {| Nodes := [variable x (Scalar_of_Z 1); variable x (Scalar_of_Z 1);
               operator2 NodeType.Add] |}.

(** [Mul(Variable(x, 2), Constant(3))] *)
Definition two_x_times_3 : Tree :=
  {| Nodes := [constant (Scalar_of_Z 3); variable x (Scalar_of_Z 2);
               operator2 NodeType.Mul] |}.

(** A single constant [1]. *)
Definition one : Tree := {| Nodes := [constant (Scalar_of_Z 1)] |}.

(** The tree [x], a single variable of weight [1]. *)
Definition just_x : Tree := {| Nodes := [variable x (Scalar_of_Z 1)] |}.

Definition rows (n : nat) : Range := {| Start := 0; Size := n |}.

(** Instances of the parameters, for closed examples: elementary functions
    that no tree above contains, a scratch matrix that starts as NaN, a solver
    that gives up at once and keeps the parameter block, and metrics that
    return a fixed value. *)
Definition libm : Libm :=
  {| libm_log := fun _ => S754_nan; libm_exp := fun _ => S754_nan;
     libm_sin := fun _ => S754_nan; libm_cos := fun _ => S754_nan;
     libm_tan := fun _ => S754_nan; libm_cbrt := fun _ => S754_nan |}.

Definition scratch : nat -> nat -> Scalar := fun _ _ => S754_nan.

Definition Solve (options : SolverOptions) (problem : ceres_Problem)
  : unit * list Scalar := (tt, parameter_block problem).

Definition metric (v : Scalar) : list Scalar -> list Scalar -> Scalar :=
  fun _ _ => v.

(** Dataset [xy] with target [y], fitted on its three rows. *)
Definition problem_xy : Problem :=
  {| GetDataset := xy; TrainingRange := rows 3; TargetVariable := y |}.

Definition evaluator (iterations : N) : EvaluatorBase :=
  {| problem := problem_xy; iterations := iterations;
     fitnessEvaluations := 0; localEvaluations := 0 |}.

End Examples.

(** ** Vocabulary of the statements *)

(** Everything of a node but its [Value]. *)
Definition skeleton (s : Node) : NodeType.t * nat * nat * nat * N :=
  (Type_ s, Arity s, Length s, Depth s, HashValue s).

(** [tree'] has the nodes of [tree], in the same order, and a node that is
    neither a Constant nor a Variable is the same in both. *)
Definition only_coefficients_differ (tree tree' : Tree) : Prop :=
  Forall2 (fun s s' => skeleton s = skeleton s'
                       /\ (IsConstant s || IsVariable s = false -> s' = s))
          (Nodes tree) (Nodes tree').

(** The options of the calls of the solver, in order. *)
Definition solver_calls {Summary} (events : list (OptimizeEvent Summary))
  : list SolverOptions :=
  flat_map (fun e => match e with
                     | CallSolve _ options _ => [options]
                     | _ => []
                     end) events.

(** The number of entries the nodes contribute to the coefficient vector. *)
Definition coefficient_count (nodes : list Node) : nat :=
  length (filter (fun s => IsConstant s || IsVariable s) nodes).

(** The reads of the parameter buffer in a log. *)
Definition parameter_reads (log : list Event) : list Event :=
  filter (fun e => match e with ReadParameter _ _ => true | _ => false end) log.

(** The reads of dataset columns in a log. *)
Definition column_reads (log : list Event) : list Event :=
  filter (fun e => match e with ReadColumn _ _ _ _ => true | _ => false end) log.

(** The parameter cursor after a node, from the cursor before it. *)
Definition advance (s : Node) (idx : nat) : nat :=
  if IsConstant s || IsVariable s then S idx else idx.

(** For the nodes [rest] that start at position [i], [idx] coefficients
    before them: a read of slot (number of Constant and Variable nodes
    before the node) for each node that [select]s. *)
Fixpoint slot_reads (select : Node -> bool) (i idx : nat) (rest : list Node)
  : list Event :=
  match rest with
  | [] => []
  | s :: rest =>
      (if select s then [ReadParameter i idx] else [])
      ++ slot_reads select (S i)
           (advance s idx) rest
  end.

(** The log of the setup pass: nothing without parameters, one slot per
    Constant node with them. *)
Definition setup_reads (parameters : option (list Scalar)) (i idx : nat)
    (rest : list Node) : list Event :=
  match parameters with
  | None => []
  | Some _ => slot_reads IsConstant i idx rest
  end.

(** Two computations fail together, or both succeed with results that [R]
    relates; the logs are not compared. *)
Definition related {A B} (R : A -> B -> Prop) (c1 : Eff A) (c2 : Eff B) : Prop :=
  match c1, c2 with
  | Some (a, _), Some (b, _) => R a b
  | None, None => True
  | _, _ => False
  end.

(** ** Preconditions and invariants of [Evaluate] *)

(** [v] lies between the two bounds. *)
Definition within (bounds : Scalar * Scalar) (v : Scalar) : Prop :=
  lt v (fst bounds) = false /\ lt (snd bounds) v = false.

(** An operator at position [i] finds its operands before it: one column at
    [i - 1], and for a binary operator a second one at
    [i - 1 - Length(nodes[i - 1]) - 1]. *)
Definition operands_before (nodes : list Node) (i : nat) (s : Node) : bool :=
  match Type_ s with
  | NodeType.Add | NodeType.Mul | NodeType.Sub | NodeType.Div =>
      match i with
      | O => false
      | S c1 => match nth_error nodes c1 with
                | Some n1 => Length n1 + 2 <=? i
                | None => false
                end
      end
  | NodeType.Constant | NodeType.Variable_ => true
  | _ => 1 <=? i
  end.

(** The column of a Variable node exists and covers the rows of the range. *)
Definition column_covers (dataset : Dataset) (range : Range) (s : Node) : bool :=
  if IsVariable s then
    match nth_error (Values dataset) (GetIndex dataset (HashValue s)) with
    | Some column => Start range + Size range <=? length column
    | None => false
    end
  else true.

(** [check i s] holds of every node [s] of [rest], [i] being its position when
    [rest] starts at position [first]. *)
Fixpoint all_nodes (check : nat -> Node -> bool) (first : nat) (rest : list Node)
  : bool :=
  match rest with
  | [] => true
  | s :: rest => check first s && all_nodes check (S first) rest
  end.

(** What a call of [Evaluate] needs to be defined. *)
Definition evaluable (tree : Tree) (dataset : Dataset) (range : Range)
    (parameters : option (list Scalar)) : bool :=
  let nodes := Nodes tree in
  (1 <=? length nodes) && (Z.of_nat (length nodes) <=? 2 ^ 64)%Z
  && all_nodes (fun i s => operands_before nodes i s
                           && column_covers dataset range s) 0 nodes
  && match parameters with
     | None => true
     | Some P => coefficient_count nodes <=? length P
     end.

(** Every column of the scratch matrix has [BATCHSIZE] rows. *)
Definition shaped (cols : nat) (m : Matrix) : Prop :=
  length m = cols /\ Forall (fun c => length c = BATCHSIZE) m.


(** Every operator of the tree finds its operands before it, and the positions
    fit a [size_t]. *)
Definition operands_found (tree : Tree) : bool :=
  (Z.of_nat (length (Nodes tree)) <=? 2 ^ 64)%Z
  && all_nodes (operands_before (Nodes tree)) 0 (Nodes tree).

(** Two scratch matrices with as many columns, each as long in both. *)
Definition same_shape (m1 m2 : Matrix) : Prop :=
  map (@length Scalar) m1 = map (@length Scalar) m2.

Definition constant_at (nodes : list Node) (j : nat) : Prop :=
  exists s, nth_error nodes j = Some s /\ IsConstant s = true.

(** Two scratch matrices that differ only where a batch of [rows] rows cannot
    see it once it has reached the node at [i]: the columns before [i] agree
    on their first [rows] rows, the columns of Constant nodes agree. *)
Definition agree (nodes : list Node) (rows i : nat) (m1 m2 : Matrix) : Prop :=
  same_shape m1 m2
  /\ forall j a b,
       nth_error m1 j = Some a -> nth_error m2 j = Some b ->
       (j < i -> firstn rows a = firstn rows b)
       /\ (constant_at nodes j -> a = b).

(** The same for the setup loop once it has reached the node at [i]. *)
Definition agree_constants (nodes : list Node) (i : nat) (m1 m2 : Matrix)
  : Prop :=
  same_shape m1 m2
  /\ forall j a b,
       nth_error m1 j = Some a -> nth_error m2 j = Some b ->
       j < i -> constant_at nodes j -> a = b.

(** ** Subtree crossover *)

(** [v[i] = x] for an index computed on [size_t]; out of range is undefined. *)
Definition store {A} (v : list A) (i : Z) (x : A) : option (list A) :=
  if (0 <=? i)%Z && (i <? Z.of_nat (length v))%Z
  then Some (set_nth v (Z.to_nat i) x)
  else None.

(** The [count] elements that [std::copy_n(v.begin() + first, count, ...)]
    appends; leaving [v] is undefined. *)
Definition copy_n {A} (v : list A) (first count : Z) : option (list A) :=
  if (0 <=? first)%Z && (0 <=? count)%Z
     && (first + count <=? Z.of_nat (length v))%Z
  then Some (firstn (Z.to_nat count) (skipn (Z.to_nat first) v))
  else None.

(** The members of [SubtreeCrossover] ([crossover.hpp] is not among the
    sources).  The two limits are values below [2^64]: whether the members are
    [long] or [size_t], what reaches the [size_t] parameters of
    [SelectRandomBranch] is the same. *)
Record SubtreeCrossover : Type := {
  internalProbability : Scalar;
  maxDepth : Z;
  maxLength : Z
}.

Section Crossover.

(** The random number generator [operon::rand_t] and the three ways the
    source draws from it: [std::uniform_real_distribution<double>(0, 1)],
    [std::shuffle] of a range, [std::uniform_int_distribution<size_t>(a, b)].
    Each returns the generator it leaves. *)
Variable Rand : Type.
Variable uniformReal : Rand -> Scalar * Rand.
Variable shuffle : Rand -> list nat -> list nat * Rand.
Variable uniformInt : Z -> Z -> Rand -> Z * Rand.

(** [Node::IsLeaf], [Tree::Level], [Tree::Length] and [Tree::UpdateNodes] are
    declared in headers that are not among the sources. *)
Variable IsLeaf : Node -> bool.
Variable Level : Tree -> nat -> Z.
Variable Tree_Length : Tree -> Z.
Variable UpdateNodes : Tree -> Tree.

(** Body of the first loop of [SelectRandomBranch]; the state is
    [(indices, head, tail)]. *)
Definition partition_node (i : nat) (node : Node) (st : list nat * Z * Z)
  : option (list nat * Z * Z) :=
  let '(indices, head, tail) := st in
  let '(idx, head, tail) :=
    if IsLeaf node then (head, ((head + 1) mod 2 ^ 64)%Z, tail)
    else (tail, head, size_t_sub tail 1) in
  match store indices idx i with
  | Some indices => Some (indices, head, tail)
  | None => None
  end.

Fixpoint partition (i : nat) (rest : list Node) (st : list nat * Z * Z)
  : option (list nat * Z * Z) :=
  match rest with
  | [] => Some st
  | node :: rest =>
      match partition_node i node st with
      | Some st => partition (S i) rest st
      | None => None
      end
  end.

(** The second loop of [SelectRandomBranch], over the shuffled positions:
    the first one whose node is within the two limits, if any. *)
Fixpoint first_within (nodes : list Node) (maxBranchDepth maxBranchLength : Z)
    (candidates : list nat) : option (option nat) :=
  match candidates with
  | [] => Some None
  | idx :: candidates =>
      match nth_error nodes idx with
      | None => None
      | Some node =>
          if (Z.of_nat (Length node) + 1 >? maxBranchLength)%Z
             || (Z.of_nat (Depth node) >? maxBranchDepth)%Z
          then first_within nodes maxBranchDepth maxBranchLength candidates
          else Some (Some idx)
      end
  end.

(** The end of [SelectRandomBranch]: a position drawn among the first [head]
    entries of [indices]. *)
Definition select_leaf (head : Z) (random : Rand) (indices : list nat)
  : option (option nat * Rand) :=
  let (idx, random) := uniformInt 0 (size_t_sub head 1) random in
  match at_ indices idx with
  | Some i => Some (Some i, random)
  | None => None
  end.

(** [SelectRandomBranch]: the position it returns, if any, and the generator
    it leaves; [None] where the source is undefined. *)
Definition SelectRandomBranch (random : Rand) (tree : Tree)
    (internalProb : Scalar) (maxBranchDepth maxBranchLength : Z)
  : option (option nat * Rand) :=
  if (maxBranchDepth =? 0)%Z || (maxBranchLength =? 0)%Z then
    Some (None, random)
  else
    let (u, random) := uniformReal random in
    let choice := lt u internalProb in
    let nodes := Nodes tree in
    let indices := repeat 0 (length nodes) in
    let head := 0%Z in
    let tail := size_t_sub (Z.of_nat (length nodes)) 1 in
    match partition 0 nodes (indices, head, tail) with
    | None => None
    | Some (indices, head, tail) =>
        if choice then
          let (shuffled, random) :=
            shuffle random (skipn (Z.to_nat head) indices) in
          let indices := firstn (Z.to_nat head) indices ++ shuffled in
          match first_within nodes maxBranchDepth maxBranchLength shuffled with
          | None => None
          | Some (Some idx) => Some (Some idx, random)
          | Some None => select_leaf head random indices
          end
        else select_leaf head random indices
    end.

(** [SubtreeCrossover::operator()]: the child and the generator it leaves. *)
Definition SubtreeCrossover_call (self : SubtreeCrossover) (random : Rand)
    (lhs rhs : Tree) : option (Tree * Rand) :=
  match SelectRandomBranch random lhs (internalProbability self)
          (maxDepth self) (maxLength self) with
  | None => None
  | Some (None, random) => Some (lhs, random)
  | Some (Some i, random) =>
      match nth_error (Nodes lhs) i with
      | None => None
      | Some lhs_i =>
          let maxBranchDepth := size_t_sub (maxDepth self) (Level lhs i) in
          let partialTreeLength :=
            size_t_sub (Tree_Length lhs) (Z.of_nat (Length lhs_i) + 1) in
          let maxBranchLength :=
            size_t_sub (maxLength self) partialTreeLength in
          match SelectRandomBranch random rhs (internalProbability self)
                  maxBranchDepth maxBranchLength with
          | None => None
          | Some (None, random) => Some (lhs, random)
          | Some (Some j, random) =>
              let left := Nodes lhs in
              let right := Nodes rhs in
              match nth_error right j with
              | None => None
              | Some right_j =>
                  match
                    copy_n left 0
                      (size_t_sub (Z.of_nat i) (Z.of_nat (Length lhs_i))),
                    copy_n right (Z.of_nat j - Z.of_nat (Length right_j))
                      (Z.of_nat (Length right_j) + 1),
                    copy_n left (Z.of_nat i + 1)
                      (size_t_sub (Z.of_nat (length left)) (Z.of_nat i + 1))
                  with
                  | Some a, Some b, Some c =>
                      Some (UpdateNodes {| Nodes := a ++ b ++ c |}, random)
                  | _, _, _ => None
                  end
              end
          end
      end
  end.

End Crossover.

(** The positions, in increasing order, of the nodes of [rest] that [select]s,
    [rest] starting at position [first]. *)
Fixpoint positions (select : Node -> bool) (first : nat) (rest : list Node)
  : list nat :=
  match rest with
  | [] => []
  | s :: rest =>
      (if select s then [first] else []) ++ positions select (S first) rest
  end.

(** ** Instances for the crossover *)

Module CrossoverExamples.

(** A node is a leaf when it has no argument. *)
Definition IsLeaf (s : Node) : bool := Arity s =? 0.

(** A generator that counts its draws: the real draw is [0], the shuffle
    reverses the range, the integer draw is the lower end. *)
Definition uniformReal (random : nat) : Scalar * nat :=
  (Scalar_of_Z 0, S random).

Definition shuffle (random : nat) (l : list nat) : list nat * nat :=
  (rev l, S random).

Definition uniformInt (a b : Z) (random : nat) : Z * nat := (a, S random).

Definition Level (tree : Tree) (i : nat) : Z := 1.

Definition Tree_Length (tree : Tree) : Z := Z.of_nat (length (Nodes tree)).

Definition UpdateNodes (tree : Tree) : Tree := tree.

Definition crossover : SubtreeCrossover :=
  {| internalProbability := Scalar_of_Z 1; maxDepth := 10; maxLength := 10 |}.

(** The residual functor of [3 * (2 x)] against the target [y]. *)
Definition residual : ParameterizedEvaluation :=
  {| tree_ref := Examples.two_x_times_3; dataset_ref := Examples.xy;
     target_ref := map Scalar_of_Z [1; 2; 3]%Z; range := Examples.rows 3 |}.

End CrossoverExamples.

(** ** MinMax and LimitToRange *)

Lemma MinMax_step_finite (acc : Scalar * Scalar) (v : Scalar) :
  IsFinite (fst acc) = true -> IsFinite (snd acc) = true ->
  IsFinite (fst (MinMax_step acc v)) = true
  /\ IsFinite (snd (MinMax_step acc v)) = true.
Proof.
  destruct acc as [lo hi]; unfold MinMax_step; simpl; intros Hlo Hhi.
  destruct (IsFinite v) eqn:Hv; simpl; [| now split].
  destruct (lt v lo), (lt hi v); simpl; now split.
Qed.

Lemma fold_MinMax_step_finite (values : list Scalar) (acc : Scalar * Scalar) :
  IsFinite (fst acc) = true -> IsFinite (snd acc) = true ->
  IsFinite (fst (fold_left MinMax_step values acc)) = true
  /\ IsFinite (snd (fold_left MinMax_step values acc)) = true.
Proof.
  revert acc; induction values as [| v values IH]; intros acc Hlo Hhi; simpl.
  - now split.
  - destruct (MinMax_step_finite acc v Hlo Hhi) as [H1 H2]. now apply IH.
Qed.

(** The bounds [MinMax] returns are finite, whatever the values. *)
Lemma MinMax_finite (values : list Scalar) :
  IsFinite (fst (MinMax values)) = true /\ IsFinite (snd (MinMax values)) = true.
Proof. apply fold_MinMax_step_finite; reflexivity. Qed.

(** Without a finite value the bounds stay as they were initialised. *)
Lemma MinMax_no_finite (values : list Scalar) :
  Forall (fun v => IsFinite v = false) values ->
  MinMax values = (Numeric_Max, Numeric_Min).
Proof.
  unfold MinMax. generalize (Numeric_Max, Numeric_Min).
  induction values as [| v values IH]; intros acc H; simpl.
  - reflexivity.
  - inversion H as [| ? ? Hv Hrest]; subst.
    unfold MinMax_step at 2. destruct acc as [lo hi]. rewrite Hv. simpl.
    now apply IH.
Qed.

(** Without a finite value every entry becomes the midrange of the type. *)
Lemma LimitToRange_no_finite (values : list Scalar) (min max : Scalar) :
  Forall (fun v => IsFinite v = false) values ->
  LimitToRange values min max
  = repeat (div (add min max) (Scalar_of_Z 2)) (length values).
Proof.
  unfold LimitToRange. induction 1 as [| v values Hv _ IH];
    cbn [map repeat length].
  - reflexivity.
  - rewrite Hv. f_equal. exact IH.
Qed.

(** [LimitToRange] gives finite entries as soon as its midpoint is finite. *)
Lemma LimitToRange_finite (values : list Scalar) (min max : Scalar) :
  IsFinite min = true -> IsFinite max = true ->
  IsFinite (div (add min max) (Scalar_of_Z 2)) = true ->
  Forall (fun v => IsFinite v = true) (LimitToRange values min max).
Proof.
  intros Hmin Hmax Hmid. unfold LimitToRange. apply Forall_forall.
  intros v' Hin. apply in_map_iff in Hin. destruct Hin as [v [<- _]].
  destruct (IsFinite v) eqn:Hv; [| exact Hmid].
  unfold clamp. destruct (lt v min); [exact Hmin |].
  destruct (lt max v); [exact Hmax | exact Hv].
Qed.

(** C1, at a failing input.  [Add(Variable(x, 1), Variable(x, 1))] over the two
    rows [x = [3 * 2^1021, 2^1023]], both finite: the batched pass gives
    [[3 * 2^1022, +inf]], the only finite value is both [min] and [max], their
    sum overflows, the midpoint [(min + max) / 2] is [+inf], and the second
    entry of the vector [Evaluate] returns is [+inf], which is not finite. *)
Theorem Evaluate_midpoint_overflow :
  forall (libm : Libm) (uninitialized : nat -> nat -> Scalar),
    Evaluate libm uninitialized Examples.x_plus_x Examples.large
      (Examples.rows 2) None
    = Some [Scalar_of_Z (3 * 2 ^ 1022); S754_infinity false]
    /\ IsFinite (S754_infinity false) = false.
Proof. intros libm uninitialized. split; vm_compute; reflexivity. Qed.

(** ** The Sub node *)

(** C4.  The tree [Sub(Variable(x, 1), Variable(y, 1))], stored with its first
    operand [x] at [i - 1] and its second operand [y] before it, evaluates over
    the three rows of [x = [5, 5, 5]], [y = [1, 2, 3]] to [[4, 3, 2]]; and a
    Sub node at index [i] computes column [i - 1] minus column
    [i - 1 - Length(nodes[i - 1]) - 1], whatever the tree. *)
Theorem Evaluate_x_minus_y :
  forall (libm : Libm) (uninitialized : nat -> nat -> Scalar),
    Evaluate libm uninitialized Examples.x_minus_y Examples.xy
      (Examples.rows 3) None
    = Some (map Scalar_of_Z [4; 3; 2]%Z)
    /\ forall nodes dataset range parameters indices row remainingRows
              i arity len depth v hash m idx,
        eval_node libm nodes dataset range parameters indices row
          remainingRows i
          {| Type_ := NodeType.Sub; Arity := arity; Length := len;
             Depth := depth; Value := v; HashValue := hash |} (m, idx)
        = let c1 := size_t_sub (Z.of_nat i) 1 in
          match at_ nodes c1 with
          | None => None
          | Some n1 =>
              let c2 := size_t_sub (size_t_sub c1 1) (Z.of_nat (Length n1)) in
              match at_ m c1, at_ m c2 with
              | Some a, Some b => Some ((set_nth m i (map2 sub a b), idx), [])
              | _, _ => None
              end
          end.
Proof.
  intros libm uninitialized. split.
  - vm_compute. reflexivity.
  - intros. unfold eval_node, binary, col; cbn [Type_].
    destruct (at_ nodes _) as [n1 |]; cbn; [| reflexivity].
    destruct (at_ m (size_t_sub (Z.of_nat i) 1)) as [a |]; cbn; [| reflexivity].
    destruct (at_ m _) as [b |]; cbn; reflexivity.
Qed.

(** With the two leaves exchanged the same operator gives [y - x]. *)
Lemma Evaluate_y_minus_x (libm : Libm) (uninitialized : nat -> nat -> Scalar) :
  Evaluate libm uninitialized Examples.y_minus_x Examples.xy
    (Examples.rows 3) None
  = Some (map Scalar_of_Z [-4; -3; -2]%Z).
Proof. vm_compute. reflexivity. Qed.

(** ** The coefficient optimizer *)

Lemma int_of_size_t_small (z : Z) :
  (0 <= z < 2 ^ 31)%Z -> int_of_size_t z = z.
Proof.
  intros Hz. unfold int_of_size_t.
  rewrite Z.mod_small by lia.
  destruct (z <? 2 ^ 31)%Z eqn:E; [reflexivity |].
  apply Z.ltb_ge in E. lia.
Qed.

Lemma Optimize_options_cap (n : N) (report : bool) :
  (1 <= n <= 2 ^ 31)%N ->
  max_num_iterations (Optimize_options n report) = (Z.of_N n - 1)%Z.
Proof.
  intros Hn. unfold Optimize_options, size_t_sub; cbn [max_num_iterations].
  assert (H31 : (Z.of_N (2 ^ 31) = 2 ^ 31)%Z) by reflexivity.
  assert (0 <= Z.of_N n - 1 < 2 ^ 31)%Z by lia.
  rewrite Z.mod_small by lia.
  now apply int_of_size_t_small.
Qed.

Section OptimizerFacts.

Variable Summary : Type.
Variable default_summary : Summary.
Variable Solve : SolverOptions -> ceres_Problem -> Summary * list Scalar.

Local Abbreviation optimize := (Optimize Summary default_summary Solve).

(** With a coefficient, [Optimize] calls the solver once, with the options of
    [Optimize_options]. *)
Lemma Optimize_solver_calls autodiff tree dataset targetValues range
    (iterations : N) writeCoefficients report :
  GetCoefficients tree <> [] ->
  solver_calls (snd (optimize autodiff tree dataset targetValues range
                       iterations writeCoefficients report))
  = [Optimize_options iterations report].
Proof.
  intros Hcoef. unfold Optimize.
  destruct (GetCoefficients tree) as [| c coef]; [congruence |].
  destruct (Solve _ _) as [summary coef']. cbn [snd].
  destruct report; reflexivity.
Qed.

(** C2, amended.  For [1 <= iterations <= 2^31], the one call of the solver
    has the iteration cap [iterations - 1], which is
    [max(0, iterations - 1)]. *)
Theorem Optimize_iteration_cap autodiff tree dataset targetValues range
    (iterations : N) writeCoefficients report :
  GetCoefficients tree <> [] ->
  (1 <= iterations <= 2 ^ 31)%N ->
  map max_num_iterations
    (solver_calls (snd (optimize autodiff tree dataset targetValues range
                          iterations writeCoefficients report)))
  = [Z.max 0 (Z.of_N iterations - 1)]
  /\ Z.max 0 (Z.of_N iterations - 1) = (Z.of_N iterations - 1)%Z.
Proof.
  intros Hcoef Hn. rewrite Optimize_solver_calls by exact Hcoef.
  cbn [map]. rewrite Optimize_options_cap by exact Hn.
  assert (E : Z.max 0 (Z.of_N iterations - 1) = (Z.of_N iterations - 1)%Z)
    by lia.
  rewrite E. split; reflexivity.
Qed.

(** C7.  Without a coefficient, [Optimize] returns the default summary and
    the tree as it was, and does nothing else: no cost function, no call of
    the solver, whatever the solver is. *)
Theorem Optimize_no_coefficients autodiff tree dataset targetValues range
    (iterations : N) writeCoefficients report :
  GetCoefficients tree = [] ->
  optimize autodiff tree dataset targetValues range iterations
    writeCoefficients report
  = (default_summary, tree, []).
Proof.
  intros Hcoef. unfold Optimize. rewrite Hcoef. reflexivity.
Qed.

Lemma SetCoefficients_nodes_frame (nodes : list Node) (coef : list Scalar) :
  Forall2 (fun s s' => skeleton s = skeleton s'
                       /\ (IsConstant s || IsVariable s = false -> s' = s))
          nodes (SetCoefficients_nodes nodes coef).
Proof.
  revert coef; induction nodes as [| s nodes IH]; intros coef;
    cbn [SetCoefficients_nodes].
  - constructor.
  - destruct (IsConstant s || IsVariable s) eqn:E.
    + destruct coef as [| c coef]; constructor; auto; split;
        try reflexivity; intros; congruence.
    + constructor; auto.
Qed.

Lemma only_coefficients_differ_refl (tree : Tree) :
  only_coefficients_differ tree tree.
Proof.
  unfold only_coefficients_differ.
  induction (Nodes tree); constructor; auto.
Qed.

(** C6.  The tree [Optimize] leaves has the nodes of the tree it was given,
    in the same order, each with the same type, arity, length, depth and hash,
    and a node that is neither a Constant nor a Variable is untouched; with
    [writeCoefficients = false] the tree is the one it was given. *)
Theorem Optimize_frame autodiff tree dataset targetValues range
    (iterations : N) writeCoefficients report :
  only_coefficients_differ tree
    (snd (fst (optimize autodiff tree dataset targetValues range iterations
                 writeCoefficients report)))
  /\ map skeleton
       (Nodes (snd (fst (optimize autodiff tree dataset targetValues range
                           iterations writeCoefficients report))))
     = map skeleton (Nodes tree)
  /\ snd (fst (optimize autodiff tree dataset targetValues range iterations
                 false report))
     = tree.
Proof.
  assert (Hfirst : forall w,
    only_coefficients_differ tree
      (snd (fst (optimize autodiff tree dataset targetValues range iterations
                   w report)))).
  { intros w. unfold Optimize.
    destruct (GetCoefficients tree) as [| c coef];
      [apply only_coefficients_differ_refl |].
    destruct (Solve _ _) as [summary coef']. cbn [fst snd].
    destruct w; [| apply only_coefficients_differ_refl].
    apply SetCoefficients_nodes_frame. }
  split; [apply Hfirst |]. split.
  - specialize (Hfirst writeCoefficients).
    unfold only_coefficients_differ in Hfirst.
    induction Hfirst as [| s s' l l' [Hs _] _ IH]; cbn [map];
      [reflexivity | rewrite Hs, IH; reflexivity].
  - unfold Optimize.
    destruct (GetCoefficients tree) as [| c coef]; [reflexivity |].
    destruct (Solve _ _) as [summary coef']. reflexivity.
Qed.

End OptimizerFacts.

(** C2, as stated, fails for [iterations = 0]: on the tree made of the
    constant [1], the solver is called with the cap [-1], the value of
    [0 - 1] on [size_t] once stored in an [int], and not with
    [max(0, 0 - 1) = 0]. *)
Lemma Optimize_iteration_cap_zero :
  map max_num_iterations
    (solver_calls (snd (Optimize unit tt Examples.Solve true Examples.one
                          Examples.xy [] (Examples.rows 0) 0 true false)))
  = [(-1)%Z]
  /\ map max_num_iterations
       (solver_calls (snd (Optimize unit tt Examples.Solve true Examples.one
                             Examples.xy [] (Examples.rows 0) 0 true false)))
     <> [Z.max 0 (0 - 1)].
Proof. split; [reflexivity | discriminate]. Qed.

(** Past [2^31] the cap no longer fits an [int] either. *)
Lemma Optimize_options_cap_large :
  max_num_iterations (Optimize_options (2 ^ 31 + 1) false) = (- 2 ^ 31)%Z.
Proof. reflexivity. Qed.

Lemma Optimize_iteration_cap_witness :
  GetCoefficients Examples.one <> []
  /\ (1 <= 50 <= 2 ^ 31)%N
  /\ map max_num_iterations
       (solver_calls (snd (Optimize unit tt Examples.Solve true Examples.one
                             Examples.xy (map Scalar_of_Z [1; 2; 3]%Z)
                             (Examples.rows 3) 50 true false)))
     = [49%Z].
Proof.
  split; [discriminate |]. split; [split; discriminate |].
  apply (Optimize_iteration_cap unit tt Examples.Solve true Examples.one
           Examples.xy (map Scalar_of_Z [1; 2; 3]%Z) (Examples.rows 3) 50
           true false); [discriminate | split; discriminate].
Defined.

Lemma Optimize_no_coefficients_witness :
  GetCoefficients {| Nodes := [] |} = []
  /\ Optimize unit tt Examples.Solve true {| Nodes := [] |} Examples.xy
       (map Scalar_of_Z [1; 2; 3]%Z) (Examples.rows 3) 50 true true
     = (tt, {| Nodes := [] |}, []).
Proof.
  split; [reflexivity |].
  apply (Optimize_no_coefficients unit tt Examples.Solve). reflexivity.
Defined.

(** ** The fitness evaluators *)

Section EvaluatorFacts.

Variable libm : Libm.
Variable uninitialized : nat -> nat -> Scalar.
Variable Summary : Type.
Variable default_summary : Summary.
Variable iterations_size : Summary -> nat.
Variable Solve : SolverOptions -> ceres_Problem -> Summary * list Scalar.
Variable NormalizedMeanSquaredError : list Scalar -> list Scalar -> Scalar.
Variable RSquared : list Scalar -> list Scalar -> Scalar.

Local Abbreviation estimate :=
  (estimate libm uninitialized Summary default_summary iterations_size Solve).
Local Abbreviation NMSE_call :=
  (NormalizedMeanSquaredErrorEvaluator_call libm uninitialized Summary
     default_summary iterations_size Solve NormalizedMeanSquaredError).
Local Abbreviation RSquared_call :=
  (RSquaredEvaluator_call libm uninitialized Summary default_summary
     iterations_size Solve RSquared).

(** What [RSquaredEvaluator] returns for a finite [r2]: [1 - r2 + 0], with
    the [r2] that [RSquared] gave. *)
Lemma RSquaredEvaluator_finite self ind est target self' ind' :
  estimate self ind = Some (est, target, self', ind') ->
  IsFinite (RSquared est target) = true ->
  RSquared_call self ind
  = Some (add (sub UpperBound (RSquared est target)) LowerBound, self', ind').
Proof.
  intros He Hf. unfold RSquaredEvaluator_call. rewrite He, Hf. reflexivity.
Qed.

(** C8.  Once the predictions are there: when the NMSE is not finite,
    [NormalizedMeanSquaredErrorEvaluator] returns [Numeric::Max]; when the
    R-squared is not finite, [RSquaredEvaluator] takes it as [0] and returns
    [1], its upper bound. *)
Theorem nonfinite_fitness_replaced self ind est target self' ind' :
  estimate self ind = Some (est, target, self', ind') ->
  (IsFinite (NormalizedMeanSquaredError est target) = false ->
   NMSE_call self ind = Some (Numeric_Max, self', ind'))
  /\ (IsFinite (RSquared est target) = false ->
      RSquared_call self ind = Some (Scalar_of_Z 1, self', ind')
      /\ Scalar_of_Z 1 = UpperBound).
Proof.
  intros He. split; intros Hf.
  - unfold NormalizedMeanSquaredErrorEvaluator_call. rewrite He, Hf.
    reflexivity.
  - unfold RSquaredEvaluator_call. rewrite He, Hf. split; reflexivity.
Qed.

End EvaluatorFacts.

Lemma nonfinite_fitness_replaced_witness :
  NormalizedMeanSquaredErrorEvaluator_call Examples.libm Examples.scratch unit
    tt (fun _ => 0) Examples.Solve (Examples.metric S754_nan)
    (Examples.evaluator 0) {| Genotype := Examples.just_x |}
  = Some (Numeric_Max,
          {| problem := Examples.problem_xy; iterations := 0;
             fitnessEvaluations := 1; localEvaluations := 0 |},
          {| Genotype := Examples.just_x |})
  /\ RSquaredEvaluator_call Examples.libm Examples.scratch unit tt
       (fun _ => 0) Examples.Solve (Examples.metric (S754_infinity false))
       (Examples.evaluator 0) {| Genotype := Examples.just_x |}
     = Some (Scalar_of_Z 1,
             {| problem := Examples.problem_xy; iterations := 0;
                fitnessEvaluations := 1; localEvaluations := 0 |},
             {| Genotype := Examples.just_x |}).
Proof.
  destruct (nonfinite_fitness_replaced Examples.libm Examples.scratch unit tt
              (fun _ => 0) Examples.Solve (Examples.metric S754_nan)
              (Examples.metric (S754_infinity false)) (Examples.evaluator 0)
              {| Genotype := Examples.just_x |}
              (map Scalar_of_Z [5; 5; 5]%Z) (map Scalar_of_Z [1; 2; 3]%Z)
              {| problem := Examples.problem_xy; iterations := 0;
                 fitnessEvaluations := 1; localEvaluations := 0 |}
              {| Genotype := Examples.just_x |})
    as [Hnmse Hr2]; [vm_compute; reflexivity |].
  split; [apply Hnmse; reflexivity | apply Hr2; reflexivity].
Defined.

(** ** Computations up to their logs *)

Lemma related_refl {A} (c : Eff A) : related eq c c.
Proof. destruct c as [[a l] |]; simpl; auto. Qed.

Lemma related_value {A} (c1 c2 : Eff A) :
  related eq c1 c2 -> value c1 = value c2.
Proof.
  destruct c1 as [[a1 l1] |], c2 as [[a2 l2] |]; simpl; intros H;
    try contradiction; congruence.
Qed.

Lemma related_bind {A A' B B'} (RA : A -> A' -> Prop) (RB : B -> B' -> Prop)
    (c1 : Eff A) (c2 : Eff A') (k1 : A -> Eff B) (k2 : A' -> Eff B') :
  related RA c1 c2 ->
  (forall a a', RA a a' -> related RB (k1 a) (k2 a')) ->
  related RB (bind c1 k1) (bind c2 k2).
Proof.
  destruct c1 as [[a1 l1] |], c2 as [[a2 l2] |]; simpl; intros H Hk;
    try contradiction; auto.
  specialize (Hk a1 a2 H).
  destruct (k1 a1) as [[b1 m1] |], (k2 a2) as [[b2 m2] |]; simpl in *; auto.
Qed.

Lemma related_bind_same {A B B'} (RB : B -> B' -> Prop) (c : Eff A)
    (k1 : A -> Eff B) (k2 : A -> Eff B') :
  (forall a, related RB (k1 a) (k2 a)) ->
  related RB (bind c k1) (bind c k2).
Proof.
  intros Hk. apply related_bind with (RA := eq); [apply related_refl |].
  intros a a' <-. apply Hk.
Qed.

Lemma related_for_rows {St} (b1 b2 : nat -> St -> Eff St) (rows : list nat) :
  (forall row st, related eq (b1 row st) (b2 row st)) ->
  forall st, related eq (for_rows b1 rows st) (for_rows b2 rows st).
Proof.
  intros Hb. induction rows as [| row rows IH]; intros st; cbn [for_rows].
  - apply related_refl.
  - apply related_bind with (RA := eq); [apply Hb |].
    intros a a' <-. apply IH.
Qed.

(** ** Parameter equivalence *)

Local Abbreviation coefficients_of nodes :=
  (map Value (filter (fun s => IsConstant s || IsVariable s) nodes)).

Lemma nth_error_middle {A} (pre : list A) (a : A) (post : list A) :
  nth_error (pre ++ a :: post) (length pre) = Some a.
Proof. induction pre; simpl; auto. Qed.

Ltac same_steps :=
  repeat (apply related_bind_same; intros ?).

Lemma related_bind_Some {A A' B B'} (RB : B -> B' -> Prop) (a : A) (a' : A')
    (l l' : list Event) (k1 : A -> Eff B) (k2 : A' -> Eff B') :
  related RB (k1 a) (k2 a') ->
  related RB (bind (Some (a, l)) k1) (bind (Some (a', l')) k2).
Proof.
  cbn [bind].
  destruct (k1 a) as [[b1 m1] |], (k2 a') as [[b2 m2] |]; simpl; auto.
Qed.

Section ParameterEquivalence.

Variable libm : Libm.
Variable dataset : Dataset.

(** The coefficient vector, node after node. *)
Lemma coefficients_of_cons (s : Node) (rest : list Node) :
  coefficients_of (s :: rest)
  = (if IsConstant s || IsVariable s then [Value s] else [])
    ++ coefficients_of rest.
Proof. cbn [filter]. destruct (IsConstant s || IsVariable s); reflexivity. Qed.

Lemma setup_node_related (P : list Scalar) i s m indices pre post :
  P = pre ++ (if IsConstant s || IsVariable s then [Value s] else []) ++ post ->
  related (fun a a' => a = a' /\ snd a = advance s (length pre))
    (setup_node dataset None i s (m, indices, length pre))
    (setup_node dataset (Some P) i s (m, indices, length pre)).
Proof.
  intros HP. unfold setup_node, advance.
  destruct (IsConstant s) eqn:Hc; cbn [orb] in *.
  - unfold read_parameter. subst P. cbn [app]. rewrite nth_error_middle.
    simpl. split; reflexivity.
  - destruct (IsVariable s); simpl; split; reflexivity.
Qed.

Lemma setup_related (P : list Scalar) (rest : list Node) :
  forall i m indices pre,
    P = pre ++ coefficients_of rest ->
    related eq
      (for_nodes (setup_node dataset None) i rest (m, indices, length pre))
      (for_nodes (setup_node dataset (Some P)) i rest (m, indices, length pre)).
Proof.
  induction rest as [| s rest IH]; intros i m indices pre HP; cbn [for_nodes].
  - apply related_refl.
  - rewrite coefficients_of_cons in HP.
    eapply related_bind; [eapply setup_node_related; exact HP |].
    intros [[m1 ind1] idx1] a' [<- Hidx]. cbn [snd] in Hidx. subst idx1.
    unfold advance.
    destruct (IsConstant s || IsVariable s).
    + replace (S (length pre)) with (length (pre ++ [Value s]))
        by (rewrite length_app; simpl; lia).
      apply IH. rewrite <- app_assoc. exact HP.
    + apply IH. exact HP.
Qed.

Lemma eval_node_related (P : list Scalar) nodes range indices row remainingRows
    i s m idx pre post :
  P = pre ++ (if IsConstant s || IsVariable s then [Value s] else []) ++ post ->
  related (fun a a' => fst a = fst a' /\ snd a' = advance s (length pre))
    (eval_node libm nodes dataset range None indices row remainingRows i s
       (m, idx))
    (eval_node libm nodes dataset range (Some P) indices row remainingRows i s
       (m, length pre)).
Proof.
  intros HP. unfold eval_node, advance, IsConstant, IsVariable in *.
  destruct (Type_ s); cbn [orb] in *;
    try (apply related_bind_same; intros r; simpl; split; reflexivity).
  - simpl. split; reflexivity.
  - assert (E : (w <- read_parameter i P (length pre) ;; ret (w, S (length pre)))
                = Some ((Value s, S (length pre)),
                        [ReadParameter i (length pre)])).
    { unfold read_parameter. subst P. cbn [app]. rewrite nth_error_middle.
      reflexivity. }
    rewrite E. unfold ret at 1. apply related_bind_Some. cbv beta iota.
    same_steps. simpl. split; reflexivity.
Qed.

Lemma batch_nodes_related (P : list Scalar) nodes range indices row
    remainingRows (rest : list Node) :
  forall i m idx pre,
    P = pre ++ coefficients_of rest ->
    related (fun a a' => fst a = fst a')
      (for_nodes (eval_node libm nodes dataset range None indices row
                    remainingRows) i rest (m, idx))
      (for_nodes (eval_node libm nodes dataset range (Some P) indices row
                    remainingRows) i rest (m, length pre)).
Proof.
  induction rest as [| s rest IH]; intros i m idx pre HP; cbn [for_nodes].
  - simpl. reflexivity.
  - rewrite coefficients_of_cons in HP.
    eapply related_bind; [eapply eval_node_related; exact HP |].
    intros [m1 idx1] [m2 idx2] [Hm Hidx]. cbn [fst snd] in Hm, Hidx.
    subst m2 idx2. unfold advance.
    destruct (IsConstant s || IsVariable s).
    + replace (S (length pre)) with (length (pre ++ [Value s]))
        by (rewrite length_app; simpl; lia).
      apply IH. rewrite <- app_assoc. exact HP.
    + apply IH. exact HP.
Qed.

Lemma batch_related nodes range indices numRows row st :
  related eq
    (batch libm nodes dataset range None indices numRows row st)
    (batch libm nodes dataset range
       (Some (coefficients_of nodes)) indices numRows row st).
Proof.
  destruct st as [m result]. unfold batch, batch_nodes.
  eapply related_bind;
    [apply (batch_nodes_related (coefficients_of nodes) nodes range indices
              row _ nodes 0 m 0 []); reflexivity |].
  intros [m1 idx1] [m2 idx2] Hm. cbn [fst] in Hm. subst m2. cbv beta iota.
  apply related_refl.
Qed.

Variable uninitialized : nat -> nat -> Scalar.

Lemma Evaluate_span_related tree range result :
  related eq
    (Evaluate_span libm uninitialized tree dataset range None result)
    (Evaluate_span libm uninitialized tree dataset range
       (Some (GetCoefficients tree)) result).
Proof.
  unfold Evaluate_span, GetCoefficients.
  eapply related_bind;
    [apply (setup_related (coefficients_of (Nodes tree)) (Nodes tree) 0 _ _ []);
     reflexivity |].
  intros [[m1 ind1] idx1] a' <-. cbv beta iota.
  apply related_bind_same. intros _.
  eapply related_bind; [apply related_for_rows; intros; apply batch_related |].
  intros a a'' <-. apply related_refl.
Qed.

End ParameterEquivalence.

(** C5.  For every tree, dataset and range, [Evaluate] without parameters
    returns what it returns with the coefficient vector [GetCoefficients]
    extracts from the tree (and is undefined in the same cases). *)
Theorem Evaluate_parameter_equivalence :
  forall (libm : Libm) (uninitialized : nat -> nat -> Scalar)
         (t : Tree) (d : Dataset) (r : Range),
    Evaluate libm uninitialized t d r None
    = Evaluate libm uninitialized t d r (Some (GetCoefficients t)).
Proof.
  intros. unfold Evaluate, Evaluate_log. apply related_value.
  apply Evaluate_span_related.
Qed.

(** ** The parameter cursor *)

Lemma nth_error_set_nth_other {A} (v : list A) (i c : nat) (x : A) :
  c <> i -> nth_error (set_nth v i x) c = nth_error v c.
Proof.
  revert i c; induction v as [| y v IH]; intros [| i] [| c] H; simpl; auto;
    try congruence.
Qed.

Lemma length_set_nth {A} (v : list A) (i : nat) (x : A) :
  length (set_nth v i x) = length v.
Proof. revert i; induction v as [| y v IH]; intros [| i]; simpl; auto. Qed.

Lemma nth_error_set_nth_same {A} (v : list A) (i : nat) (x : A) :
  i < length v -> nth_error (set_nth v i x) i = Some x.
Proof.
  revert i; induction v as [| y v IH]; intros [| i] H; cbn in *;
    try lia; auto. apply IH. lia.
Qed.

Lemma segment_length {A} (v s : list A) (offset count : nat) :
  segment v offset count = Some s -> length s = count.
Proof.
  unfold segment. destruct (offset + count <=? length v) eqn:E;
    [| discriminate].
  apply Nat.leb_le in E. intros H; inversion H; subst.
  rewrite length_firstn, length_skipn. lia.
Qed.

Lemma parameter_reads_app (l1 l2 : list Event) :
  parameter_reads (l1 ++ l2) = parameter_reads l1 ++ parameter_reads l2.
Proof. apply filter_app. Qed.

Lemma bind_Some_inv {A B} (c : Eff A) (k : A -> Eff B) (b : B) (l : list Event) :
  bind c k = Some (b, l) ->
  exists a l1 l2, c = Some (a, l1) /\ k a = Some (b, l2) /\ l = l1 ++ l2.
Proof.
  unfold bind. destruct c as [[a l1] |]; [| discriminate].
  destruct (k a) as [[b' l2] |] eqn:E; [| discriminate].
  intros H; inversion H; subst. eauto 6.
Qed.

Lemma coefficient_count_cons (s : Node) (rest : list Node) :
  advance s 0 + coefficient_count rest = coefficient_count (s :: rest).
Proof.
  unfold coefficient_count, advance. cbn [filter].
  destruct (IsConstant s || IsVariable s); reflexivity.
Qed.

Lemma advance_plus (s : Node) (idx : nat) : advance s idx = idx + advance s 0.
Proof. unfold advance. destruct (IsConstant s || IsVariable s); lia. Qed.

Ltac destruct_matches H :=
  repeat match type of H with
         | context [match ?o with _ => _ end] =>
             lazymatch o with
             | context [match _ with _ => _ end] => fail
             | _ => destruct o eqn:?
             end
         end.

Section Cursor.

Variable libm : Libm.
Variable nodes : list Node.
Variable dataset : Dataset.
Variable range : Range.
Variable P : list Scalar.
Variable indices : list nat.
Variable row remainingRows : nat.

Local Abbreviation step :=
  (eval_node libm nodes dataset range (Some P) indices row remainingRows).

Lemma eval_node_inv i s m idx m1 idx1 l1 :
  step i s (m, idx) = Some ((m1, idx1), l1) ->
  idx1 = advance s idx
  /\ parameter_reads l1 = (if IsVariable s then [ReadParameter i idx] else [])
  /\ (IsConstant s = true -> m1 = m)
  /\ (forall c, c <> i -> nth_error m1 c = nth_error m c).
Proof.
  unfold eval_node, advance, IsConstant, IsVariable, binary, unary, col,
    read_parameter, bind, lift, tell, ret.
  intros H.
  destruct (Type_ s); destruct_matches H; try discriminate;
    inversion H; subst; cbn [orb app parameter_reads filter];
    repeat split; try discriminate; try reflexivity;
    intros; apply nth_error_set_nth_other; assumption.
Qed.

Lemma for_nodes_eval_inv (rest : list Node) :
  forall i m idx m' idx' log,
    for_nodes step i rest (m, idx) = Some ((m', idx'), log) ->
    parameter_reads log = slot_reads IsVariable i idx rest
    /\ idx' = idx + coefficient_count rest
    /\ (forall c,
          (i <= c -> forall s, nth_error rest (c - i) = Some s ->
                               IsConstant s = true) ->
          nth_error m' c = nth_error m c).
Proof.
  induction rest as [| s rest IH]; intros i m idx m' idx' log H;
    cbn [for_nodes] in H.
  - inversion H; subst. cbn. repeat split; auto.
  - apply bind_Some_inv in H. destruct H as ([m1 idx1] & l1 & l2 & H1 & H2 & ->).
    apply eval_node_inv in H1. destruct H1 as (-> & Hl1 & Hconst & Hother).
    apply IH in H2. destruct H2 as (Hl2 & -> & Hcols).
    rewrite parameter_reads_app, Hl1, Hl2. cbn [slot_reads].
    split; [reflexivity |]. split.
    + rewrite <- coefficient_count_cons. unfold advance.
      destruct (IsConstant s || IsVariable s); lia.
    + intros c Hc. rewrite Hcols.
      * destruct (Nat.eq_dec c i) as [-> | Hne]; [| apply Hother; exact Hne].
        rewrite Hconst; [reflexivity |].
        apply Hc; [lia |]. rewrite Nat.sub_diag. reflexivity.
      * intros Hle s' Hs'. apply Hc; [lia |].
        replace (c - i) with (S (c - S i)) by lia. exact Hs'.
Qed.

(** What a Variable node at position [i] leaves in its column: over the first
    [remainingRows] rows, the rows of its dataset column times the weight
    [w]; the other rows stay as they were. *)
Local Abbreviation weighted i w r r' :=
  (exists k column seg,
     nth_error indices i = Some k
     /\ nth_error (Values dataset) k = Some column
     /\ segment column (Start range + row) remainingRows = Some seg
     /\ r' = map (mul w) seg ++ skipn remainingRows r).




End Cursor.




(** ** The empty range *)

Lemma at_last {A} (v : list A) :
  v <> [] -> exists a, at_ v (size_t_sub (Z.of_nat (length v)) 1) = Some a.
Proof.
  intros Hv. unfold at_, size_t_sub.
  assert (Hlen : 0 < length v) by (destruct v; simpl; [congruence | lia]).
  set (z := ((Z.of_nat (length v) - 1) mod 2 ^ 64)%Z).
  assert (Hz : (0 <= z <= Z.of_nat (length v) - 1)%Z).
  { split; [apply Z.mod_pos_bound; lia | apply Z.mod_le; lia]. }
  replace ((0 <=? z)%Z && (z <? Z.of_nat (length v))%Z) with true
    by (symmetry; apply andb_true_intro; split;
        [apply Z.leb_le | apply Z.ltb_lt]; lia).
  destruct (nth_error v (Z.to_nat z)) as [a |] eqn:E; [eauto |].
  apply nth_error_None in E. lia.
Qed.

Lemma length_new_matrix (uninitialized : nat -> nat -> Scalar) (cols : nat) :
  length (new_matrix uninitialized cols) = cols.
Proof. unfold new_matrix. rewrite length_map, length_seq. reflexivity. Qed.

Section EmptyRange.

Variable dataset : Dataset.
Variable parameters : option (list Scalar).

Lemma setup_defined (rest : list Node) :
  forall i m indices idx,
    (forall P, parameters = Some P -> idx + coefficient_count rest <= length P) ->
    exists m' indices',
      for_nodes (setup_node dataset parameters) i rest (m, indices, idx)
      = Some ((m', indices', idx + coefficient_count rest),
              setup_reads parameters i idx rest)
      /\ length m' = length m.
Proof.
  induction rest as [| s rest IH]; intros i m indices idx Hcover;
    cbn [for_nodes].
  - exists m, indices. split; [| reflexivity].
    unfold coefficient_count, setup_reads; cbn [filter length slot_reads].
    rewrite Nat.add_0_r. destruct parameters; reflexivity.
  - rewrite <- coefficient_count_cons in *.
    assert (Hrest : forall P, parameters = Some P ->
                     advance s idx + coefficient_count rest <= length P).
    { intros P HP. specialize (Hcover P HP). unfold advance in *.
      destruct (IsConstant s || IsVariable s); lia. }
    unfold setup_reads, advance in *. unfold setup_node at 1.
    destruct (IsConstant s) eqn:Hc; cbn [orb slot_reads] in *.
    + assert (Hv : exists v,
                (match parameters with
                 | Some p => read_parameter i p idx
                 | None => ret (Value s)
                 end)
                = Some (v, match parameters with
                           | Some _ => [ReadParameter i idx]
                           | None => []
                           end)).
      { destruct parameters as [P |]; [| eexists; reflexivity].
        specialize (Hcover P eq_refl). unfold read_parameter.
        destruct (nth_error P idx) as [v |] eqn:E;
          [exists v; reflexivity | apply nth_error_None in E; lia]. }
      destruct Hv as [v Hv]. rewrite Hv.
      destruct (IH (S i) (set_nth m i (repeat v BATCHSIZE)) indices (S idx) Hrest)
        as (m' & indices' & Hloop & Hlen).
      exists m', indices'. rewrite length_set_nth in Hlen. split; [| exact Hlen].
      cbn [bind ret]. unfold Matrix in *. rewrite Hloop. cbn [app].
      replace (S idx + coefficient_count rest)
        with (idx + (1 + coefficient_count rest)) by lia.
      unfold advance. rewrite Hc. cbn [orb app].
      destruct parameters; reflexivity.
    + destruct (IsVariable s) eqn:Hvar; cbn [orb] in *.
      * destruct (IH (S i) m (set_nth indices i (GetIndex dataset (HashValue s)))
                    (S idx) Hrest) as (m' & indices' & Hloop & Hlen).
        exists m', indices'. split; [| exact Hlen].
        cbn [bind ret]. unfold Matrix in *. rewrite Hloop. cbn [app].
        replace (S idx + coefficient_count rest)
          with (idx + (1 + coefficient_count rest)) by lia.
        unfold advance. rewrite Hc, Hvar. cbn [orb app].
        destruct parameters; reflexivity.
      * destruct (IH (S i) m indices idx Hrest)
          as (m' & indices' & Hloop & Hlen).
        exists m', indices'. split; [| exact Hlen].
        cbn [bind ret]. unfold Matrix in *. rewrite Hloop. cbn [app Nat.add].
        unfold advance. rewrite Hc, Hvar. cbn [orb app].
        destruct parameters; reflexivity.
Qed.

End EmptyRange.

Lemma column_reads_slot_reads select i idx rest :
  column_reads (slot_reads select i idx rest) = [].
Proof.
  revert i idx; induction rest as [| s rest IH]; intros i idx;
    cbn [slot_reads]; [reflexivity |].
  unfold column_reads in *. rewrite filter_app, IH.
  destruct (select s); reflexivity.
Qed.

(** C9, amended.  For a non-empty tree and parameters that are null or cover
    the coefficient vector, [Evaluate] over a range of size 0 returns the empty
    vector; the batch loop runs no iteration; no dataset column is read; and
    the only reads of the parameter buffer are those of the setup pass, one per
    Constant node when the parameters are not null. *)
Theorem Evaluate_empty_range :
  forall (libm : Libm) (uninitialized : nat -> nat -> Scalar) (tree : Tree)
         (dataset : Dataset) (range : Range)
         (parameters : option (list Scalar)),
    Size range = 0 ->
    Nodes tree <> [] ->
    (forall P, parameters = Some P ->
               coefficient_count (Nodes tree) <= length P) ->
    Evaluate_log libm uninitialized tree dataset range parameters
    = Some ([], setup_reads parameters 0 0 (Nodes tree))
    /\ column_reads (setup_reads parameters 0 0 (Nodes tree)) = []
    /\ batch_rows (Size range) = [].
Proof.
  intros libm uninitialized tree dataset range parameters Hsize Hnodes Hcover.
  split; [| split].
  - unfold Evaluate_log, Evaluate_span. rewrite Hsize.
    destruct (setup_defined dataset parameters (Nodes tree) 0
                (new_matrix uninitialized (length (Nodes tree)))
                (repeat 0 (length (Nodes tree))) 0 Hcover)
      as (m' & indices' & Hsetup & Hlen).
    rewrite Hsetup. rewrite length_new_matrix in Hlen.
    assert (Hm' : m' <> []) by (destruct m', (Nodes tree); simpl in *; congruence).
    destruct (at_last m' Hm') as [lastCol Hlast]. rewrite Hlen in Hlast.
    cbn [bind]. unfold col. rewrite Hlast.
    change (batch_rows 0) with (@nil nat). cbn.
    rewrite app_nil_r. reflexivity.
  - unfold setup_reads. destruct parameters; [| reflexivity].
    apply column_reads_slot_reads.
  - rewrite Hsize. reflexivity.
Qed.

(** ** The loop over the batches *)

(** The rows at which batches start are the multiples of [BATCHSIZE] below
    [numRows]. *)
Lemma batch_rows_spec (numRows row : nat) :
  In row (batch_rows numRows) <-> row < numRows /\ row mod BATCHSIZE = 0.
Proof.
  unfold batch_rows, BATCHSIZE. rewrite in_map_iff. split.
  - intros (k & <- & Hk). apply in_seq in Hk.
    assert (k * 64 < numRows).
    { destruct Hk as [_ Hk]. cbn [Nat.add Nat.sub] in Hk.
      pose proof (Nat.div_mod_eq (numRows + 63) 64).
      pose proof (Nat.mod_upper_bound (numRows + 63) 64).
      lia. }
    split; [assumption | apply Nat.Div0.mod_mul].
  - intros [Hlt Hmod]. exists (row / 64). split.
    + pose proof (Nat.div_mod_eq row 64). lia.
    + apply in_seq. split; [lia |]. cbn [Nat.add Nat.sub].
      pose proof (Nat.div_mod_eq row 64).
      pose proof (Nat.div_mod_eq (numRows + 63) 64).
      pose proof (Nat.mod_upper_bound (numRows + 63) 64).
      lia.
Qed.

(** ** The whole call *)

Section Reads.

Variable libm : Libm.
Variable uninitialized : nat -> nat -> Scalar.
Variable dataset : Dataset.
Variable P : list Scalar.

Lemma setup_inv (rest : list Node) :
  forall i st st' log,
    for_nodes (setup_node dataset (Some P)) i rest st = Some (st', log) ->
    snd st' = snd st + coefficient_count rest
    /\ log = slot_reads IsConstant i (snd st) rest.
Proof.
  induction rest as [| s rest IH]; intros i [[m indices] idx] st' log H;
    cbn [for_nodes] in H.
  - inversion H; subst. cbn. split; [lia | reflexivity].
  - apply bind_Some_inv in H. destruct H as (st1 & l1 & l2 & H1 & H2 & ->).
    apply IH in H2. destruct H2 as [Hidx ->]. rewrite Hidx.
    rewrite <- coefficient_count_cons. cbn [slot_reads snd].
    unfold setup_node, advance, read_parameter, bind, tell, lift, ret in *.
    destruct (IsConstant s); cbn [orb] in *.
    + destruct (nth_error P idx); [| discriminate].
      inversion H1; subst. cbn. split; [lia | reflexivity].
    + destruct (IsVariable s); inversion H1; subst; cbn;
        (split; [lia | reflexivity]).
Qed.

Lemma batch_inv nodes range indices numRows row st st' log :
  batch libm nodes dataset range (Some P) indices numRows row st
  = Some (st', log) ->
  parameter_reads log = slot_reads IsVariable 0 0 nodes.
Proof.
  destruct st as [m result]. unfold batch, batch_nodes. intros H.
  apply bind_Some_inv in H.
  destruct H as ([m1 idx1] & l1 & l2 & H1 & H2 & ->).
  apply for_nodes_eval_inv in H1. destruct H1 as (Hl1 & _ & _).
  rewrite parameter_reads_app, Hl1.
  unfold col, bind, lift, ret in H2. destruct_matches H2; try discriminate.
  inversion H2; subst. cbn. apply app_nil_r.
Qed.

Lemma for_rows_inv nodes range indices numRows (rows : list nat) :
  forall st st' log,
    for_rows (batch libm nodes dataset range (Some P) indices numRows) rows st
    = Some (st', log) ->
    parameter_reads log
    = concat (map (fun _ => slot_reads IsVariable 0 0 nodes) rows).
Proof.
  induction rows as [| row rows IH]; intros st st' log H; cbn [for_rows] in H.
  - inversion H; subst. reflexivity.
  - apply bind_Some_inv in H. destruct H as (st1 & l1 & l2 & H1 & H2 & ->).
    apply batch_inv in H1. apply IH in H2.
    rewrite parameter_reads_app, H1, H2. reflexivity.
Qed.

Lemma parameter_reads_slot_reads select i idx rest :
  parameter_reads (slot_reads select i idx rest) = slot_reads select i idx rest.
Proof.
  revert i idx; induction rest as [| s rest IH]; intros i idx;
    cbn [slot_reads]; [reflexivity |].
  rewrite parameter_reads_app, IH. destruct (select s); reflexivity.
Qed.

(** X9.  All the reads of the parameter buffer in a call of [Evaluate]: the
    Constant nodes once, in the setup pass, then the Variable nodes once per
    batch, each node at its own slot every time. *)
Lemma Evaluate_parameter_reads tree range out log :
  Evaluate_log libm uninitialized tree dataset range (Some P) = Some (out, log) ->
  parameter_reads log
  = slot_reads IsConstant 0 0 (Nodes tree)
    ++ concat (map (fun _ => slot_reads IsVariable 0 0 (Nodes tree))
                 (batch_rows (Size range))).
Proof.
  unfold Evaluate_log, Evaluate_span. intros H.
  apply bind_Some_inv in H.
  destruct H as ([[m1 indices1] idx1] & l1 & l2 & H1 & H2 & ->).
  apply setup_inv in H1. destruct H1 as [_ ->]. cbn [snd].
  apply bind_Some_inv in H2. destruct H2 as (c & l3 & l4 & H3 & H4 & ->).
  apply bind_Some_inv in H4. destruct H4 as ([m2 r2] & l5 & l6 & H5 & H6 & ->).
  apply for_rows_inv in H5.
  unfold col, lift, ret in H3. destruct (at_ m1 _); [| discriminate].
  inversion H3; subst.
  destruct (MinMax r2) as [lo hi]. inversion H6; subst.
  rewrite !parameter_reads_app, H5, parameter_reads_slot_reads.
  cbn. rewrite app_nil_r. reflexivity.
Qed.

(** What [Evaluate] returns is the output of the batched pass, sanitized. *)
Lemma Evaluate_sanitized tree range parameters out :
  Evaluate libm uninitialized tree dataset range parameters = Some out ->
  exists raw,
    out = LimitToRange raw (fst (MinMax raw)) (snd (MinMax raw)).
Proof.
  unfold Evaluate, value, Evaluate_log, Evaluate_span.
  destruct (bind _ _) as [[out' log] |] eqn:H; [| discriminate].
  cbn. intros E; inversion E; subst.
  apply bind_Some_inv in H.
  destruct H as ([[m1 indices1] idx1] & l1 & l2 & _ & H2 & ->).
  apply bind_Some_inv in H2. destruct H2 as (c & l3 & l4 & _ & H4 & ->).
  apply bind_Some_inv in H4. destruct H4 as ([m2 r2] & l5 & l6 & _ & H6 & ->).
  exists r2. destruct (MinMax r2) as [lo hi]. inversion H6; subst. reflexivity.
Qed.

(** Every entry [Evaluate] returns is finite as soon as the midpoint of the
    finite outputs is. *)
Lemma Evaluate_finite tree range parameters out :
  Evaluate libm uninitialized tree dataset range parameters = Some out ->
  exists raw,
    out = LimitToRange raw (fst (MinMax raw)) (snd (MinMax raw))
    /\ (IsFinite (div (add (fst (MinMax raw)) (snd (MinMax raw)))
                      (Scalar_of_Z 2)) = true ->
        Forall (fun v => IsFinite v = true) out)
    /\ (Forall (fun v => IsFinite v = false) raw ->
        out = repeat (div (add Numeric_Max Numeric_Min) (Scalar_of_Z 2))
                (length raw)).
Proof.
  intros H. apply Evaluate_sanitized in H. destruct H as [raw ->].
  exists raw. split; [reflexivity |]. split.
  - intros Hmid. destruct (MinMax_finite raw) as [Hlo Hhi].
    now apply LimitToRange_finite.
  - intros Hnone. rewrite (MinMax_no_finite raw Hnone). cbn [fst snd].
    now apply LimitToRange_no_finite.
Qed.

End Reads.

(** C9, as stated, fails on the tree made of the constant [1] with a parameter
    buffer: the range is empty and the result too, yet the setup pass reads
    slot 0 of the buffer. *)
Lemma Evaluate_empty_range_reads_parameter :
  Size (Examples.rows 0) = 0
  /\ Evaluate_log Examples.libm Examples.scratch Examples.one Examples.xy
       (Examples.rows 0) (Some [Scalar_of_Z 2])
     = Some ([], [ReadParameter 0 0])
  /\ option_map parameter_reads
       (reads (Evaluate_log Examples.libm Examples.scratch Examples.one
                 Examples.xy (Examples.rows 0) (Some [Scalar_of_Z 2])))
     <> Some [].
Proof.
  split; [reflexivity |]. split; [vm_compute; reflexivity |].
  vm_compute. discriminate.
Qed.

Lemma Evaluate_empty_range_witness :
  Size (Examples.rows 0) = 0
  /\ Nodes Examples.two_x_times_3 <> []
  /\ Evaluate_log Examples.libm Examples.scratch Examples.two_x_times_3
       Examples.xy (Examples.rows 0) (Some (map Scalar_of_Z [3; 2]%Z))
     = Some ([], [ReadParameter 0 0]).
Proof.
  split; [reflexivity |]. split; [discriminate |].
  apply (Evaluate_empty_range Examples.libm Examples.scratch
           Examples.two_x_times_3 Examples.xy (Examples.rows 0)
           (Some (map Scalar_of_Z [3; 2]%Z))).
  - reflexivity.
  - discriminate.
  - intros P HP. inversion HP; subst. vm_compute. lia.
Defined.


(** ** The order of the scalars *)

Lemma lt_irrefl (a : Scalar) : lt a a = false.
Proof.
  unfold lt, SFltb, SFcompare.
  destruct a as [s | s | | s m e]; try destruct s; try reflexivity;
    rewrite Z.compare_refl, Pos.compare_cont_refl; reflexivity.
Qed.

Lemma lt_trans (a b c : Scalar) :
  lt a b = true -> lt b c = true -> lt a c = true.
Proof.
  unfold lt, SFltb, SFcompare.
  destruct a as [sa | sa | | sa ma ea], b as [sb | sb | | sb mb eb],
    c as [sc | sc | | sc mc ec];
    try destruct sa; try destruct sb; try destruct sc;
    try discriminate; try reflexivity;
    change (Pos.compare_cont Eq) with Pos.compare;
    destruct (Z.compare_spec ea eb), (Z.compare_spec eb ec),
      (Z.compare_spec ea ec); subst; try discriminate; try reflexivity;
      try lia;
    destruct (Pos.compare_spec ma mb), (Pos.compare_spec mb mc),
      (Pos.compare_spec ma mc); subst; cbn; try discriminate;
      try reflexivity; try lia.
Qed.

(** ** MinMax bounds every finite value *)

Lemma MinMax_step_widens (acc : Scalar * Scalar) (w v : Scalar) :
  within acc v -> within (MinMax_step acc w) v.
Proof.
  destruct acc as [lo hi]. unfold within, MinMax_step. cbn [fst snd].
  intros [Hlo Hhi]. destruct (IsFinite w); cbn [negb fst snd]; [| now split].
  split.
  - destruct (lt w lo) eqn:E; [| exact Hlo].
    destruct (lt v w) eqn:E'; [| reflexivity].
    rewrite (lt_trans v w lo E' E) in Hlo. discriminate.
  - destruct (lt hi w) eqn:E; [| exact Hhi].
    destruct (lt w v) eqn:E'; [| reflexivity].
    rewrite (lt_trans hi w v E E') in Hhi. discriminate.
Qed.

Lemma MinMax_step_covers (acc : Scalar * Scalar) (w : Scalar) :
  IsFinite w = true -> within (MinMax_step acc w) w.
Proof.
  destruct acc as [lo hi]. unfold within, MinMax_step. intros ->.
  cbn [negb fst snd]. split.
  - destruct (lt w lo) eqn:E; [apply lt_irrefl | exact E].
  - destruct (lt hi w) eqn:E; [apply lt_irrefl | exact E].
Qed.

Lemma fold_MinMax_step_widens (values : list Scalar) :
  forall acc v, within acc v -> within (fold_left MinMax_step values acc) v.
Proof.
  induction values as [| w values IH]; intros acc v H; cbn [fold_left];
    [exact H |].
  apply IH. now apply MinMax_step_widens.
Qed.

Lemma fold_MinMax_step_covers (values : list Scalar) (v : Scalar) :
  In v values -> IsFinite v = true ->
  forall acc, within (fold_left MinMax_step values acc) v.
Proof.
  induction values as [| w values IH]; intros Hin Hv acc; [destruct Hin |].
  cbn [fold_left]. destruct Hin as [<- | Hin].
  - apply fold_MinMax_step_widens. now apply MinMax_step_covers.
  - now apply IH.
Qed.

(** With bounds that no finite value exceeds, [LimitToRange] leaves the finite
    values as they are. *)
Lemma LimitToRange_covering (values : list Scalar) (lo hi : Scalar) :
  (forall v, In v values -> IsFinite v = true -> within (lo, hi) v) ->
  LimitToRange values lo hi
  = map (fun v => if IsFinite v then v else div (add lo hi) (Scalar_of_Z 2))
        values.
Proof.
  intros Hcover. unfold LimitToRange. apply map_ext_in. intros v Hin.
  destruct (IsFinite v) eqn:Hv; [| reflexivity].
  destruct (Hcover v Hin Hv) as [Hlo Hhi]. cbn [fst snd] in Hlo, Hhi.
  unfold clamp. rewrite Hlo, Hhi. reflexivity.
Qed.

(** X1.  No finite value is below the minimum or above the maximum that
    [MinMax] returns. *)
Theorem MinMax_bounds (values : list Scalar) (v : Scalar) :
  In v values -> IsFinite v = true ->
  lt v (fst (MinMax values)) = false /\ lt (snd (MinMax values)) v = false.
Proof.
  intros Hin Hv. unfold MinMax.
  apply (fold_MinMax_step_covers values v Hin Hv).
Qed.

(** X2.  With the bounds of [MinMax], [LimitToRange] leaves the finite values
    as they are and puts the midpoint in the place of the others. *)
Theorem LimitToRange_MinMax (values : list Scalar) :
  LimitToRange values (fst (MinMax values)) (snd (MinMax values))
  = map (fun v => if IsFinite v then v
                  else div (add (fst (MinMax values)) (snd (MinMax values)))
                         (Scalar_of_Z 2))
        values.
Proof.
  apply LimitToRange_covering. intros v Hin Hv.
  rewrite <- surjective_pairing. unfold MinMax.
  apply fold_MinMax_step_covers; assumption.
Qed.

(** ** The size of the result *)



Lemma assign_segment_length {A} (v s v' : list A) (offset : nat) :
  assign_segment v offset s = Some v' -> length v' = length v.
Proof.
  unfold assign_segment. destruct (offset + length s <=? length v) eqn:E;
    [| discriminate].
  apply Nat.leb_le in E. intros H; inversion H; subst.
  rewrite !length_app, length_firstn, length_skipn. lia.
Qed.

Lemma LimitToRange_length (values : list Scalar) (min max : Scalar) :
  length (LimitToRange values min max) = length values.
Proof. apply length_map. Qed.

Section ResultSize.

Variable libm : Libm.
Variable dataset : Dataset.
Variable range : Range.
Variable parameters : option (list Scalar).

Lemma batch_result_length nodes indices numRows row m result m' result' log :
  batch libm nodes dataset range parameters indices numRows row (m, result)
  = Some ((m', result'), log) ->
  length result' = length result.
Proof.
  unfold batch. intros H.
  apply bind_Some_inv in H. destruct H as ([m1 idx1] & l1 & l2 & _ & H & _).
  apply bind_Some_inv in H. destruct H as (c & l3 & l4 & _ & H & _).
  apply bind_Some_inv in H. destruct H as (seg & l5 & l6 & _ & H & _).
  apply bind_Some_inv in H. destruct H as (r & l7 & l8 & Hr & H & _).
  inversion H; subst. unfold lift in Hr.
  destruct (assign_segment result row seg) eqn:E; [| discriminate].
  inversion Hr; subst. eapply assign_segment_length. exact E.
Qed.

Lemma for_rows_result_length nodes indices numRows (rows : list nat) :
  forall st st' log,
    for_rows (batch libm nodes dataset range parameters indices numRows) rows st
    = Some (st', log) ->
    length (snd st') = length (snd st).
Proof.
  induction rows as [| row rows IH]; intros st st' log H; cbn [for_rows] in H.
  - inversion H; subst. reflexivity.
  - apply bind_Some_inv in H. destruct H as (st1 & l1 & l2 & H1 & H2 & _).
    apply IH in H2. rewrite H2. destruct st as [m result], st1 as [m1 result1].
    eapply batch_result_length. exact H1.
Qed.

Variable uninitialized : nat -> nat -> Scalar.

Lemma Evaluate_span_length tree result out log :
  Evaluate_span libm uninitialized tree dataset range parameters result
  = Some (out, log) ->
  length out = length result.
Proof.
  unfold Evaluate_span. intros H.
  apply bind_Some_inv in H.
  destruct H as ([[m1 indices1] idx1] & l1 & l2 & _ & H & _).
  apply bind_Some_inv in H. destruct H as (c & l3 & l4 & _ & H & _).
  apply bind_Some_inv in H. destruct H as ([m2 r2] & l5 & l6 & H5 & H & _).
  apply for_rows_result_length in H5. cbn [snd] in H5.
  destruct (MinMax r2) as [lo hi]. inversion H; subst.
  rewrite LimitToRange_length. exact H5.
Qed.

(** X4.  The vector [Evaluate] returns has one entry per row of the range. *)
Theorem Evaluate_length tree out :
  Evaluate libm uninitialized tree dataset range parameters = Some out ->
  length out = Size range.
Proof.
  unfold Evaluate, value, Evaluate_log.
  destruct (Evaluate_span _ _ _ _ _ _ _) as [[out' log] |] eqn:H;
    [| discriminate].
  cbn. intros E; inversion E; subst.
  apply Evaluate_span_length in H. rewrite H. apply repeat_length.
Qed.

End ResultSize.


Lemma at_of_nat {A} (v : list A) (k : nat) :
  k < length v -> at_ v (Z.of_nat k) = nth_error v k.
Proof.
  intros Hk. unfold at_.
  replace ((0 <=? Z.of_nat k)%Z && (Z.of_nat k <? Z.of_nat (length v))%Z)
    with true
    by (symmetry; apply andb_true_intro; split;
        [apply Z.leb_le | apply Z.ltb_lt]; lia).
  rewrite Nat2Z.id. reflexivity.
Qed.

Lemma size_t_sub_of_nat (a b : nat) :
  b <= a -> (Z.of_nat a <= 2 ^ 64)%Z -> 1 <= b ->
  size_t_sub (Z.of_nat a) (Z.of_nat b) = Z.of_nat (a - b).
Proof.
  intros Hba Ha Hb. unfold size_t_sub. rewrite Z.mod_small by lia. lia.
Qed.

Lemma length_map2 {A B C} (f : A -> B -> C) (xs : list A) (ys : list B) :
  length (map2 f xs ys) = Nat.min (length xs) (length ys).
Proof.
  revert ys; induction xs as [| x xs IH]; intros [| y ys]; cbn; auto.
Qed.

Lemma shaped_set_nth (cols : nat) (m : Matrix) (i : nat) (c : Column) :
  shaped cols m -> length c = BATCHSIZE -> shaped cols (set_nth m i c).
Proof.
  intros [Hlen Hall] Hc. split; [rewrite length_set_nth; exact Hlen |].
  clear Hlen. revert i. induction Hall as [| y m Hy Hall IH]; intros [| i];
    cbn; constructor; auto.
Qed.

Lemma shaped_column (cols : nat) (m : Matrix) (j : nat) :
  shaped cols m -> j < cols ->
  exists c, nth_error m j = Some c /\ length c = BATCHSIZE.
Proof.
  intros [Hlen Hall] Hj.
  destruct (nth_error m j) as [c |] eqn:E;
    [| apply nth_error_None in E; lia].
  exists c. split; [reflexivity |].
  rewrite Forall_forall in Hall. apply Hall. eapply nth_error_In. exact E.
Qed.

Lemma shaped_new_matrix (uninitialized : nat -> nat -> Scalar) (cols : nat) :
  shaped cols (new_matrix uninitialized cols).
Proof.
  split; [apply length_new_matrix |].
  unfold new_matrix. apply Forall_forall. intros c Hc.
  apply in_map_iff in Hc. destruct Hc as (k & <- & _).
  rewrite length_map, length_seq. reflexivity.
Qed.

Section Definedness.

Variable libm : Libm.
Variable dataset : Dataset.
Variable range : Range.
Variable parameters : option (list Scalar).
Variable nodes : list Node.
Hypothesis nodes_size : (Z.of_nat (length nodes) <= 2 ^ 64)%Z.

Lemma binary_defined op m i n1 :
  shaped (length nodes) m -> i < length nodes ->
  1 <= i -> nth_error nodes (i - 1) = Some n1 -> Length n1 + 2 <= i ->
  exists r, binary op nodes m i = Some (r, []) /\ length r = BATCHSIZE.
Proof.
  intros Hm Hi H1 Hn1 HL. unfold binary, col.
  change 1%Z with (Z.of_nat 1).
  rewrite !size_t_sub_of_nat by lia.
  destruct (Nat.eq_dec (Length n1) 0) as [E0 | E0].
  - rewrite at_of_nat, Hn1 by lia. cbn [lift bind ret].
    rewrite E0. unfold size_t_sub. cbn [Z.of_nat]. rewrite Z.sub_0_r.
    rewrite Z.mod_small by lia.
    destruct (shaped_column _ m (i - 1) Hm ltac:(lia)) as (a & Ha & Hla).
    destruct (shaped_column _ m (i - 1 - 1) Hm ltac:(lia)) as (b & Hb & Hlb).
    rewrite !at_of_nat by (destruct Hm; lia). rewrite Ha, Hb. cbn.
    eexists; split; [reflexivity |]. rewrite length_map2, Hla, Hlb. reflexivity.
  - rewrite at_of_nat, Hn1 by lia. cbn [lift bind ret].
    rewrite size_t_sub_of_nat by lia.
    destruct (shaped_column _ m (i - 1) Hm ltac:(lia)) as (a & Ha & Hla).
    destruct (shaped_column _ m (i - 1 - 1 - Length n1) Hm ltac:(lia))
      as (b & Hb & Hlb).
    rewrite !at_of_nat by (destruct Hm; lia). rewrite Ha, Hb. cbn.
    eexists; split; [reflexivity |]. rewrite length_map2, Hla, Hlb. reflexivity.
Qed.

Lemma unary_defined f m i :
  shaped (length nodes) m -> i < length nodes -> 1 <= i ->
  exists r, unary f m i = Some (r, []) /\ length r = BATCHSIZE.
Proof.
  intros Hm Hi H1. unfold unary, col. change 1%Z with (Z.of_nat 1).
  rewrite size_t_sub_of_nat by lia.
  destruct (shaped_column _ m (i - 1) Hm ltac:(lia)) as (a & Ha & Hla).
  rewrite at_of_nat by (destruct Hm; lia). rewrite Ha. cbn.
  eexists; split; [reflexivity |]. rewrite length_map. exact Hla.
Qed.


Variable indices : list nat.
Variable numRows row remainingRows : nat.
Hypothesis rows_in_range : row + remainingRows <= Size range.
Hypothesis rows_in_batch : remainingRows <= BATCHSIZE.

Local Abbreviation step :=
  (eval_node libm nodes dataset range parameters indices row remainingRows).

(** One node of a batch: the state it needs and the state it leaves. *)
Lemma eval_node_defined i s m idx :
  shaped (length nodes) m -> i < length nodes ->
  operands_before nodes i s = true -> column_covers dataset range s = true ->
  (IsVariable s = true ->
   nth_error indices i = Some (GetIndex dataset (HashValue s))) ->
  (forall P, parameters = Some P -> IsVariable s = true -> idx < length P) ->
  exists m' idx' log,
    step i s (m, idx) = Some ((m', idx'), log)
    /\ shaped (length nodes) m'
    /\ (parameters <> None -> idx' = advance s idx).
Proof.
  intros Hm Hi Hops Hcol Hind Hpar.
  unfold eval_node, operands_before, column_covers, advance, IsConstant,
    IsVariable in *.
  destruct (Type_ s) eqn:Hty; cbn [orb] in *.
  1-4: destruct i as [| c1]; [discriminate |];
       destruct (nth_error nodes c1) as [n1 |] eqn:Hn1; [| discriminate];
       apply Nat.leb_le in Hops;
       match goal with
       | |- context [binary ?op _ _ _] =>
           destruct (binary_defined op m (S c1) n1 Hm Hi
                       ltac:(lia)
                       ltac:(cbn [Nat.sub]; rewrite Nat.sub_0_r; exact Hn1)
                       Hops) as (r & -> & Hr)
       end;
       cbn; do 3 eexists; split; [reflexivity |];
       split; [apply shaped_set_nth; assumption | reflexivity].
  1-8: apply Nat.leb_le in Hops;
       match goal with
       | |- context [unary ?f _ _] =>
           destruct (unary_defined f m i Hm Hi Hops) as (r & -> & Hr)
       end;
       cbn; do 3 eexists; split; [reflexivity |];
       split; [apply shaped_set_nth; assumption | reflexivity].
  - cbn. do 3 eexists. split; [reflexivity |]. split; [exact Hm | reflexivity].
  - rewrite (Hind eq_refl).
    destruct (nth_error (Values dataset) _) as [column |] eqn:Hc;
      [| discriminate].
    apply Nat.leb_le in Hcol.
    destruct (shaped_column _ m i Hm Hi) as (r & Hr & Hlr).
    assert (Hseg : segment column (Start range + row) remainingRows
                   = Some (firstn remainingRows
                             (skipn (Start range + row) column))).
    { unfold segment.
      replace (Start range + row + remainingRows <=? length column) with true
        by (symmetry; apply Nat.leb_le; lia).
      reflexivity. }
    assert (Hlen : length (firstn remainingRows
                             (skipn (Start range + row) column))
                   = remainingRows)
      by (rewrite length_firstn, length_skipn; lia).
    assert (Hassign : forall w, exists r',
               assign_segment r 0
                 (map (mul w) (firstn remainingRows
                                 (skipn (Start range + row) column)))
               = Some r' /\ length r' = BATCHSIZE).
    { intros w. unfold assign_segment. rewrite length_map, Hlen.
      replace (0 + remainingRows <=? length r) with true
        by (symmetry; apply Nat.leb_le; lia).
      eexists; split; [reflexivity |].
      rewrite !length_app, length_firstn, length_skipn, length_map, Hlen.
      cbn. lia. }
    destruct parameters as [P |].
    + specialize (Hpar P eq_refl eq_refl).
      destruct (nth_error P idx) as [w |] eqn:Hw;
        [| apply nth_error_None in Hw; lia].
      destruct (Hassign w) as (r' & Hr' & Hlr').
      unfold read_parameter. rewrite Hw. cbn [bind tell lift ret].
      rewrite Hc. cbn [bind tell lift ret].
      rewrite Hseg. cbn [bind tell lift ret]. rewrite Hr. cbn [bind tell lift ret]. rewrite Hr'. cbn.
      do 3 eexists. split; [reflexivity |].
      split; [apply shaped_set_nth; assumption | reflexivity].
    + destruct (Hassign (Value s)) as (r' & Hr' & Hlr').
      cbn [bind tell lift ret]. rewrite Hc. cbn [bind tell lift ret].
      rewrite Hseg. cbn [bind tell lift ret].
      rewrite Hr. cbn [bind tell lift ret]. rewrite Hr'. cbn.
      do 3 eexists. split; [reflexivity |].
      split; [apply shaped_set_nth; assumption | congruence].
Qed.


Local Abbreviation checks :=
  (fun i s => operands_before nodes i s && column_covers dataset range s).

(** The node loop of a batch, from position [i] on. *)
Lemma for_nodes_eval_defined (rest : list Node) :
  forall i m idx,
    shaped (length nodes) m -> i + length rest = length nodes ->
    all_nodes checks i rest = true ->
    (forall k s, nth_error rest k = Some s -> IsVariable s = true ->
                 nth_error indices (i + k)
                 = Some (GetIndex dataset (HashValue s))) ->
    (forall P, parameters = Some P ->
               idx + coefficient_count rest <= length P) ->
    exists m' idx' log,
      for_nodes step i rest (m, idx) = Some ((m', idx'), log)
      /\ shaped (length nodes) m'.
Proof.
  induction rest as [| s rest IH]; intros i m idx Hm Hi Hall Hind Hpar;
    cbn [for_nodes].
  - do 3 eexists. split; [reflexivity | exact Hm].
  - cbn [all_nodes length] in *. apply andb_prop in Hall.
    destruct Hall as [Hs Hall]. apply andb_prop in Hs. destruct Hs as [Hops Hcol].
    destruct (eval_node_defined i s m idx Hm ltac:(lia) Hops Hcol)
      as (m1 & idx1 & l1 & Hstep & Hm1 & Hidx1).
    { intros Hv. specialize (Hind 0 s eq_refl Hv).
      rewrite Nat.add_0_r in Hind. exact Hind. }
    { intros P HP Hv. specialize (Hpar P HP).
      rewrite <- coefficient_count_cons in Hpar. unfold advance in Hpar.
      rewrite Hv, orb_true_r in Hpar. lia. }
    rewrite Hstep.
    destruct (IH (S i) m1 idx1 Hm1 ltac:(lia) Hall) as (m' & idx' & l2 & Hloop & Hm').
    { intros k s' Hs' Hv. specialize (Hind (S k) s' Hs' Hv).
      rewrite Nat.add_succ_r in Hind. exact Hind. }
    { intros P HP. specialize (Hpar P HP).
      rewrite Hidx1 by congruence.
      rewrite <- coefficient_count_cons in Hpar.
      rewrite (advance_plus s idx). lia. }
    cbn [bind]. unfold Matrix in *. rewrite Hloop.
    do 3 eexists. split; [reflexivity | exact Hm'].
Qed.

End Definedness.

Section DefinedCall.

Variable libm : Libm.
Variable dataset : Dataset.
Variable range : Range.
Variable parameters : option (list Scalar).

(** What the setup loop leaves, when it ends. *)
Lemma setup_inv_shape (cols : nat) (rest : list Node) :
  forall i m indices idx m' indices' idx' log,
    for_nodes (setup_node dataset parameters) i rest (m, indices, idx)
    = Some ((m', indices', idx'), log) ->
    (shaped cols m -> shaped cols m')
    /\ length indices' = length indices
    /\ (forall j, j < i -> nth_error indices' j = nth_error indices j)
    /\ (forall k s, nth_error rest k = Some s -> IsVariable s = true ->
                    i + k < length indices ->
                    nth_error indices' (i + k)
                    = Some (GetIndex dataset (HashValue s))).
Proof.
  induction rest as [| s rest IH];
    intros i m indices idx m' indices' idx' log H; cbn [for_nodes] in H.
  - inversion H; subst. split; [auto |]. split; [reflexivity |].
    split; [reflexivity |]. intros [| k] s Hs; discriminate.
  - apply bind_Some_inv in H.
    destruct H as ([[m1 indices1] idx1] & l1 & l2 & H1 & H2 & _).
    apply IH in H2. destruct H2 as (Hshape & Hlen & Hbefore & Hvars).
    assert (Hstep : (shaped cols m -> shaped cols m1)
                    /\ length indices1 = length indices
                    /\ (forall j, j <> i ->
                          nth_error indices1 j = nth_error indices j)
                    /\ (IsVariable s = true -> i < length indices ->
                        nth_error indices1 i
                        = Some (GetIndex dataset (HashValue s)))).
    { unfold setup_node in H1.
      assert (Hcv : IsConstant s = true -> IsVariable s = false)
        by (unfold IsConstant, IsVariable; destruct (Type_ s); congruence).
      destruct (IsConstant s) eqn:Hc.
      - apply bind_Some_inv in H1. destruct H1 as (v & l3 & l4 & _ & H1 & _).
        inversion H1; subst.
        split; [intros Hm; apply shaped_set_nth;
                [exact Hm | reflexivity] |].
        split; [reflexivity |]. split; [reflexivity |].
        rewrite Hcv by reflexivity. discriminate.
      - destruct (IsVariable s) eqn:Hv; inversion H1; subst.
        + split; [auto |]. split; [apply length_set_nth |].
          split; [intros j Hj; apply nth_error_set_nth_other; exact Hj |].
          intros _ Hi. apply nth_error_set_nth_same. exact Hi.
        + split; [auto |]. split; [reflexivity |]. split; [reflexivity |].
          discriminate. }
    destruct Hstep as (Hshape1 & Hlen1 & Hother1 & Hvar1).
    split; [auto |]. split; [congruence |]. split.
    + intros j Hj. rewrite Hbefore by lia. apply Hother1. lia.
    + intros [| k] s' Hs' Hv Hk; cbn in Hs'.
      * inversion Hs'; subst s'. rewrite Nat.add_0_r in *.
        rewrite Hbefore by lia. apply Hvar1; assumption.
      * rewrite Nat.add_succ_r. apply Hvars; try assumption. lia.
Qed.

Lemma batch_defined nodes indices row m result :
  (Z.of_nat (length nodes) <= 2 ^ 64)%Z -> 1 <= length nodes ->
  shaped (length nodes) m -> length result = Size range ->
  row < Size range ->
  all_nodes (fun i s => operands_before nodes i s
                        && column_covers dataset range s) 0 nodes = true ->
  (forall k s, nth_error nodes k = Some s -> IsVariable s = true ->
               nth_error indices k = Some (GetIndex dataset (HashValue s))) ->
  (forall P, parameters = Some P -> coefficient_count nodes <= length P) ->
  exists m' result' log,
    batch libm nodes dataset range parameters indices (Size range) row
      (m, result)
    = Some ((m', result'), log)
    /\ shaped (length nodes) m' /\ length result' = Size range.
Proof.
  intros Hsize Hne Hm Hres Hrow Hall Hind Hpar. unfold batch, batch_nodes.
  set (remainingRows := Nat.min BATCHSIZE (Size range - row)).
  assert (Hrem : row + remainingRows <= Size range /\ remainingRows <= BATCHSIZE)
    by (unfold remainingRows; lia).
  clearbody remainingRows.
  destruct (for_nodes_eval_defined libm dataset range parameters nodes Hsize
              indices row remainingRows (proj1 Hrem) (proj2 Hrem)
              nodes 0 m 0 Hm eq_refl Hall Hind Hpar)
    as (m' & idx' & l1 & Hloop & Hm').
  unfold Matrix in *. rewrite Hloop. cbn [bind].
  unfold col. change 1%Z with (Z.of_nat 1).
  rewrite size_t_sub_of_nat by lia.
  destruct (shaped_column _ m' (length nodes - 1) Hm' ltac:(lia))
    as (lastCol & Hlast & Hlen).
  rewrite at_of_nat by (destruct Hm'; lia). rewrite Hlast.
  cbn [lift bind ret]. unfold segment.
  replace (0 + remainingRows <=? length lastCol) with true
    by (symmetry; apply Nat.leb_le; lia).
  cbn [lift bind ret]. unfold assign_segment.
  rewrite length_firstn, length_skipn.
  replace (row + Nat.min remainingRows (length lastCol - 0) <=? length result)
    with true by (symmetry; apply Nat.leb_le; lia).
  cbn [lift bind ret]. do 3 eexists. split; [reflexivity |].
  split; [exact Hm' |].
  rewrite !length_app, !length_firstn, !length_skipn. lia.
Qed.

Lemma for_rows_defined nodes indices (rows : list nat) :
  (Z.of_nat (length nodes) <= 2 ^ 64)%Z -> 1 <= length nodes ->
  all_nodes (fun i s => operands_before nodes i s
                        && column_covers dataset range s) 0 nodes = true ->
  (forall k s, nth_error nodes k = Some s -> IsVariable s = true ->
               nth_error indices k = Some (GetIndex dataset (HashValue s))) ->
  (forall P, parameters = Some P -> coefficient_count nodes <= length P) ->
  Forall (fun row => row < Size range) rows ->
  forall m result,
    shaped (length nodes) m -> length result = Size range ->
    exists st log,
      for_rows (batch libm nodes dataset range parameters indices (Size range))
        rows (m, result) = Some (st, log).
Proof.
  intros Hsize Hne Hall Hind Hpar Hrows.
  induction Hrows as [| row rows Hrow _ IH]; intros m result Hm Hres;
    cbn [for_rows].
  - do 2 eexists. reflexivity.
  - destruct (batch_defined nodes indices row m result Hsize Hne Hm Hres Hrow
                Hall Hind Hpar) as (m' & result' & l1 & Hb & Hm' & Hres').
    rewrite Hb. destruct (IH m' result' Hm' Hres') as (st & l2 & Hloop).
    cbn [bind]. unfold Matrix in *. rewrite Hloop.
    do 2 eexists. reflexivity.
Qed.

Variable uninitialized : nat -> nat -> Scalar.

(** X5.  On a tree whose operators find their operands, a dataset whose
    columns cover the range and parameters that are null or cover the
    coefficient vector, [Evaluate] returns a vector, with one entry per row. *)
Theorem Evaluate_defined tree :
  evaluable tree dataset range parameters = true ->
  exists out,
    Evaluate libm uninitialized tree dataset range parameters = Some out
    /\ length out = Size range.
Proof.
  unfold evaluable. intros H.
  apply andb_prop in H. destruct H as [H Hpar].
  apply andb_prop in H. destruct H as [H Hall].
  apply andb_prop in H. destruct H as [Hne Hsize].
  apply Nat.leb_le in Hne. apply Z.leb_le in Hsize.
  assert (Hcover : forall P, parameters = Some P ->
                             coefficient_count (Nodes tree) <= length P).
  { intros P HP. rewrite HP in Hpar. apply Nat.leb_le. exact Hpar. }
  assert (Hcall : exists out log,
             Evaluate_log libm uninitialized tree dataset range parameters
             = Some (out, log)).
  { unfold Evaluate_log, Evaluate_span.
    destruct (setup_defined dataset parameters (Nodes tree) 0
                (new_matrix uninitialized (length (Nodes tree)))
                (repeat 0 (length (Nodes tree))) 0 Hcover)
      as (m' & indices' & Hsetup & _).
    pose proof (setup_inv_shape (length (Nodes tree)) _ _ _ _ _ _ _ _ _ Hsetup)
      as (Hshape & Hlen & _ & Hvars).
    specialize (Hshape (shaped_new_matrix uninitialized _)).
    rewrite repeat_length in Hlen.
    rewrite Hsetup. cbn [bind].
    unfold col. change 1%Z with (Z.of_nat 1).
    rewrite size_t_sub_of_nat by lia.
    destruct (shaped_column _ m' (length (Nodes tree) - 1) Hshape ltac:(lia))
      as (lastCol & Hlast & _).
    rewrite at_of_nat by (destruct Hshape; lia). rewrite Hlast.
    cbn [lift bind ret].
    destruct (for_rows_defined (Nodes tree) indices' (batch_rows (Size range))
                Hsize Hne Hall) with (m := m')
               (result := repeat (Scalar_of_Z 0) (Size range))
      as ([m2 r2] & l2 & Hloop); try assumption.
    - intros k s Hs Hv. apply (Hvars k s Hs Hv).
      rewrite repeat_length. cbn [Nat.add]. apply nth_error_Some. congruence.
    - apply Forall_forall. intros row Hrow. apply batch_rows_spec in Hrow.
      tauto.
    - apply repeat_length.
    - unfold Matrix in *. rewrite Hloop. cbn.
      destruct (MinMax r2). do 2 eexists. reflexivity. }
  destruct Hcall as (out & log & Hcall). exists out.
  assert (E : Evaluate libm uninitialized tree dataset range parameters
              = Some out) by (unfold Evaluate; rewrite Hcall; reflexivity).
  split; [exact E |]. clear E. unfold Evaluate_log in Hcall.
  destruct (Evaluate_span _ _ _ _ _ _ _) as [[out' log'] |] eqn:Hspan;
    [| discriminate].
  apply Evaluate_span_length in Hspan. cbn in Hcall.
  inversion Hcall; subst. rewrite Hspan. apply repeat_length.
Qed.

End DefinedCall.

(** ** The scratch matrix does not show *)

Lemma at_nat {A} (v : list A) (k : nat) : at_ v (Z.of_nat k) = nth_error v k.
Proof.
  destruct (Nat.lt_ge_cases k (length v)) as [H | H];
    [apply at_of_nat; exact H |].
  unfold at_.
  replace (Z.of_nat k <? Z.of_nat (length v))%Z with false
    by (symmetry; apply Z.ltb_ge; lia).
  rewrite andb_false_r. symmetry. apply nth_error_None. exact H.
Qed.

Lemma size_t_sub_nat (a b : nat) :
  b <= a -> (Z.of_nat (a - b) < 2 ^ 64)%Z ->
  size_t_sub (Z.of_nat a) (Z.of_nat b) = Z.of_nat (a - b).
Proof.
  intros Hba Ha. unfold size_t_sub. rewrite Z.mod_small by lia. lia.
Qed.

Lemma map_set_nth {A B} (f : A -> B) (v : list A) (i : nat) (x : A) :
  map f (set_nth v i x) = set_nth (map f v) i (f x).
Proof.
  revert i; induction v as [| y v IH]; intros [| i]; cbn; auto.
  rewrite IH. reflexivity.
Qed.

Lemma nth_error_set_nth_inv {A} (v : list A) (i : nat) (x a : A) :
  nth_error (set_nth v i x) i = Some a -> a = x.
Proof.
  revert i; induction v as [| y v IH]; intros [| i]; cbn; try discriminate.
  - congruence.
  - apply IH.
Qed.

Lemma firstn_map2 {A B C} (f : A -> B -> C) (n : nat) (xs : list A)
    (ys : list B) :
  firstn n (map2 f xs ys) = map2 f (firstn n xs) (firstn n ys).
Proof.
  revert xs ys; induction n as [| n IH]; intros [| x xs] [| y ys]; cbn; auto.
  rewrite IH. reflexivity.
Qed.

Lemma same_shape_set_nth (m1 m2 : Matrix) (i : nat) (r1 r2 : Column) :
  same_shape m1 m2 -> length r1 = length r2 ->
  same_shape (set_nth m1 i r1) (set_nth m2 i r2).
Proof.
  unfold same_shape. intros H Hr. rewrite !map_set_nth, H, Hr. reflexivity.
Qed.

Lemma same_shape_column (m1 m2 : Matrix) (j : nat) :
  same_shape m1 m2 ->
  match nth_error m1 j, nth_error m2 j with
  | Some a, Some b => length a = length b
  | None, None => True
  | _, _ => False
  end.
Proof.
  unfold same_shape. intros H.
  assert (E : nth_error (map (@length Scalar) m1) j
              = nth_error (map (@length Scalar) m2) j) by (rewrite H; reflexivity).
  rewrite !nth_error_map in E. unfold Matrix, Column in *.
  revert E. destruct (nth_error m1 j), (nth_error m2 j); cbn; intros E;
    try discriminate; [congruence | exact I].
Qed.

Lemma agree_set_nth nodes rows i m1 m2 r1 r2 :
  agree nodes rows i m1 m2 -> ~ constant_at nodes i ->
  length r1 = length r2 -> firstn rows r1 = firstn rows r2 ->
  agree nodes rows (S i) (set_nth m1 i r1) (set_nth m2 i r2).
Proof.
  intros [Hshape Hcols] Hnc Hlen Hrows.
  split; [apply same_shape_set_nth; assumption |].
  intros j a b Ha Hb. destruct (Nat.eq_dec j i) as [-> | Hne].
  - apply nth_error_set_nth_inv in Ha, Hb. subst. split; [auto | tauto].
  - rewrite nth_error_set_nth_other in Ha, Hb by exact Hne.
    destruct (Hcols j a b Ha Hb) as [H1 H2]. split; [| exact H2].
    intros Hj. apply H1. lia.
Qed.

Lemma agree_skip nodes rows i m1 m2 :
  agree nodes rows i m1 m2 -> constant_at nodes i ->
  agree nodes rows (S i) m1 m2.
Proof.
  intros [Hshape Hcols] Hc. split; [exact Hshape |].
  intros j a b Ha Hb. destruct (Hcols j a b Ha Hb) as [H1 H2].
  split; [| exact H2]. intros Hj.
  destruct (Nat.eq_dec j i) as [-> | Hne]; [rewrite (H2 Hc); reflexivity |].
  apply H1. lia.
Qed.

Lemma agree_col nodes rows i m1 m2 j :
  agree nodes rows i m1 m2 -> j < i ->
  related (fun a b => length a = length b /\ firstn rows a = firstn rows b)
    (col m1 (Z.of_nat j)) (col m2 (Z.of_nat j)).
Proof.
  intros [Hshape Hcols] Hj. unfold col. rewrite !at_nat.
  pose proof (same_shape_column m1 m2 j Hshape) as H.
  destruct (nth_error m1 j) as [a |] eqn:Ha, (nth_error m2 j) as [b |] eqn:Hb;
    cbn; try contradiction; auto.
  split; [exact H |]. apply (Hcols j a b Ha Hb). exact Hj.
Qed.

Lemma related_bind_same_eq {A B B'} (RB : B -> B' -> Prop) (c : Eff A)
    (k1 : A -> Eff B) (k2 : A -> Eff B') :
  (forall a l, c = Some (a, l) -> related RB (k1 a) (k2 a)) ->
  related RB (bind c k1) (bind c k2).
Proof.
  intros Hk. destruct c as [[a l] |]; [| exact I].
  apply related_bind_Some. apply (Hk a l). reflexivity.
Qed.

Lemma same_shape_row (m1 m2 : Matrix) (i : nat) :
  same_shape m1 m2 ->
  related (fun r1 r2 : Column => length r1 = length r2)
    (lift (nth_error m1 i)) (lift (nth_error m2 i)).
Proof.
  intros H. pose proof (same_shape_column m1 m2 i H) as Hi.
  destruct (nth_error m1 i), (nth_error m2 i); cbn; auto.
Qed.

Lemma assign_segment_scratch (rows : nat) (r1 r2 s : Column) :
  length r1 = length r2 -> length s = rows ->
  related (fun a b : Column =>
             length a = length b /\ firstn rows a = firstn rows b)
    (lift (assign_segment r1 0 s)) (lift (assign_segment r2 0 s)).
Proof.
  intros Hr Hs. unfold assign_segment. rewrite Hr.
  destruct (0 + length s <=? length r2) eqn:E; cbn; [| exact I].
  split.
  - rewrite !length_app, !length_skipn. lia.
  - rewrite <- Hs. rewrite !firstn_app, !firstn_all, Nat.sub_diag. reflexivity.
Qed.

Section Scratch.

Variable libm : Libm.
Variable dataset : Dataset.
Variable range : Range.
Variable parameters : option (list Scalar).
Variable nodes : list Node.
Hypothesis nodes_size : (Z.of_nat (length nodes) <= 2 ^ 64)%Z.
Variable indices : list nat.
Variable row remainingRows : nat.

Local Abbreviation step :=
  (eval_node libm nodes dataset range parameters indices row remainingRows).

Local Abbreviation columns_agree :=
  (fun a b : Column =>
     length a = length b /\ firstn remainingRows a = firstn remainingRows b).

Lemma binary_scratch op i m1 m2 :
  agree nodes remainingRows i m1 m2 -> i < length nodes ->
  (exists c1 n1, i = S c1 /\ nth_error nodes c1 = Some n1
                 /\ Length n1 + 2 <= i) ->
  related columns_agree (binary op nodes m1 i) (binary op nodes m2 i).
Proof.
  intros Hagree Hi (c1 & n1 & -> & Hn1 & HL). unfold binary.
  change 1%Z with (Z.of_nat 1).
  rewrite !size_t_sub_nat by lia. rewrite at_nat.
  replace (S c1 - 1) with c1 by lia. rewrite Hn1. cbn [lift].
  unfold ret at 1 3. apply related_bind_Some.
  rewrite size_t_sub_nat by lia.
  eapply related_bind; [apply (agree_col _ _ _ _ _ c1 Hagree); lia |].
  intros a1 a2 [Hla Ha].
  eapply related_bind;
    [apply (agree_col _ _ _ _ _ (c1 - 1 - Length n1) Hagree); lia |].
  intros b1 b2 [Hlb Hb]. cbn. split.
  - rewrite !length_map2. congruence.
  - rewrite !firstn_map2. congruence.
Qed.

Lemma unary_scratch f i m1 m2 :
  agree nodes remainingRows i m1 m2 -> i < length nodes -> 1 <= i ->
  related columns_agree (unary f m1 i) (unary f m2 i).
Proof.
  intros Hagree Hi H1. unfold unary. change 1%Z with (Z.of_nat 1).
  rewrite size_t_sub_nat by lia.
  eapply related_bind; [apply (agree_col _ _ _ _ _ (i - 1) Hagree); lia |].
  intros a1 a2 [Hla Ha]. cbn. split.
  - rewrite !length_map. exact Hla.
  - rewrite !firstn_map. congruence.
Qed.


Lemma not_constant_at i s :
  nth_error nodes i = Some s -> IsConstant s = false -> ~ constant_at nodes i.
Proof. intros Hs Hc (s' & Hs' & Hc'). congruence. Qed.

(** One node of a batch, on two scratch matrices that agree. *)
Lemma eval_node_scratch i s m1 m2 idx :
  agree nodes remainingRows i m1 m2 -> nth_error nodes i = Some s ->
  operands_before nodes i s = true ->
  related (fun st1 st2 => agree nodes remainingRows (S i) (fst st1) (fst st2)
                          /\ snd st1 = snd st2)
    (step i s (m1, idx)) (step i s (m2, idx)).
Proof.
  intros Hagree Hs Hops.
  assert (Hi : i < length nodes) by (apply nth_error_Some; congruence).
  pose proof (not_constant_at i s Hs) as Hnc.
  unfold eval_node, operands_before, IsConstant in *.
  destruct (Type_ s) eqn:Hty.
  1-4: destruct i as [| c1]; [discriminate |];
       destruct (nth_error nodes c1) as [n1 |] eqn:Hn1; [| discriminate];
       apply Nat.leb_le in Hops;
       eapply related_bind;
         [apply binary_scratch; [exact Hagree | exact Hi | eauto 6] |];
       intros r1 r2 [Hlen Hrows]; cbn; split; [| reflexivity];
       apply agree_set_nth; auto.
  1-8: apply Nat.leb_le in Hops;
       eapply related_bind;
         [apply unary_scratch; [exact Hagree | exact Hi | exact Hops] |];
       intros r1 r2 [Hlen Hrows]; cbn; split; [| reflexivity];
       apply agree_set_nth; auto.
  - cbn. split; [| reflexivity]. apply agree_skip; [exact Hagree |].
    exists s. unfold IsConstant. rewrite Hty. auto.
  - apply related_bind_same. intros [w idx'].
    apply related_bind_same. intros k.
    apply related_bind_same. intros column.
    apply related_bind_same. intros _.
    apply related_bind_same_eq. intros seg lseg Hseg.
    assert (Hlseg : length (map (mul w) seg) = remainingRows).
    { rewrite length_map. unfold lift in Hseg.
      destruct (segment column _ _) as [seg' |] eqn:E; [| discriminate].
      inversion Hseg; subst. eapply segment_length. exact E. }
    eapply related_bind;
      [apply (same_shape_row m1 m2 i); apply Hagree |].
    intros r1 r2 Hr.
    eapply related_bind;
      [apply (assign_segment_scratch remainingRows); [exact Hr | exact Hlseg] |].
    intros r1' r2' [Hlen Hrows]. cbn. split; [| reflexivity].
    apply agree_set_nth; auto.
Qed.


Lemma for_nodes_eval_scratch (rest : list Node) :
  forall i m1 m2 idx,
    agree nodes remainingRows i m1 m2 ->
    (forall k s, nth_error rest k = Some s -> nth_error nodes (i + k) = Some s) ->
    all_nodes (operands_before nodes) i rest = true ->
    related (fun st1 st2 =>
               agree nodes remainingRows (i + length rest) (fst st1) (fst st2)
               /\ snd st1 = snd st2)
      (for_nodes step i rest (m1, idx)) (for_nodes step i rest (m2, idx)).
Proof.
  induction rest as [| s rest IH]; intros i m1 m2 idx Hagree Hnodes Hall;
    cbn [for_nodes all_nodes length] in *.
  - cbn. rewrite Nat.add_0_r. auto.
  - apply andb_prop in Hall. destruct Hall as [Hops Hall].
    eapply related_bind.
    + apply eval_node_scratch; [exact Hagree | | exact Hops].
      specialize (Hnodes 0 s eq_refl). rewrite Nat.add_0_r in Hnodes.
      exact Hnodes.
    + intros [m1' idx1] [m2' idx2] [Hagree' Hidx]. cbn [fst snd] in *.
      subst idx2. rewrite Nat.add_succ_r.
      apply (IH (S i)); [exact Hagree' | | exact Hall].
      intros k s' Hs'. specialize (Hnodes (S k) s' Hs').
      rewrite Nat.add_succ_r in Hnodes. exact Hnodes.
Qed.

End Scratch.

Lemma agree_rows nodes rows rows' m1 m2 :
  agree nodes rows 0 m1 m2 -> agree nodes rows' 0 m1 m2.
Proof.
  intros [Hshape Hcols]. split; [exact Hshape |].
  intros j a b Ha Hb. split; [lia | apply (Hcols j a b Ha Hb)].
Qed.

Lemma agree_forget nodes rows rows' i m1 m2 :
  agree nodes rows i m1 m2 -> agree nodes rows' 0 m1 m2.
Proof.
  intros [Hshape Hcols]. split; [exact Hshape |].
  intros j a b Ha Hb. split; [lia | apply (Hcols j a b Ha Hb)].
Qed.

Section ScratchCall.

Variable libm : Libm.
Variable dataset : Dataset.
Variable range : Range.
Variable parameters : option (list Scalar).

Lemma batch_scratch nodes indices numRows row m1 m2 result :
  (Z.of_nat (length nodes) <= 2 ^ 64)%Z -> 1 <= length nodes ->
  all_nodes (operands_before nodes) 0 nodes = true ->
  agree nodes 0 0 m1 m2 ->
  related (fun st1 st2 => agree nodes 0 0 (fst st1) (fst st2)
                          /\ snd st1 = snd st2)
    (batch libm nodes dataset range parameters indices numRows row (m1, result))
    (batch libm nodes dataset range parameters indices numRows row (m2, result)).
Proof.
  intros Hsize Hne Hall Hagree. unfold batch, batch_nodes.
  set (remainingRows := Nat.min BATCHSIZE (numRows - row)).
  eapply related_bind.
  - apply (for_nodes_eval_scratch libm dataset range parameters nodes Hsize
             indices row remainingRows nodes 0 m1 m2 0);
      [apply (agree_rows nodes 0); exact Hagree | auto | exact Hall].
  - intros [m1' idx1] [m2' idx2] [Hagree' _]. cbn [fst snd Nat.add] in *.
    change 1%Z with (Z.of_nat 1). rewrite size_t_sub_nat by lia.
    eapply related_bind;
      [apply (agree_col _ _ _ _ _ (length nodes - 1) Hagree'); lia |].
    intros c1 c2 [Hlen Hrows].
    assert (Hseg : segment c1 0 remainingRows = segment c2 0 remainingRows).
    { unfold segment. rewrite Hlen.
      destruct (0 + remainingRows <=? length c2); [| reflexivity].
      cbn [skipn]. rewrite Hrows. reflexivity. }
    rewrite Hseg. apply related_bind_same. intros seg.
    apply related_bind_same. intros result'. cbn.
    split; [| reflexivity]. eapply agree_forget. exact Hagree'.
Qed.

Lemma for_rows_scratch nodes indices numRows (rows : list nat) :
  (Z.of_nat (length nodes) <= 2 ^ 64)%Z -> 1 <= length nodes ->
  all_nodes (operands_before nodes) 0 nodes = true ->
  forall m1 m2 result,
    agree nodes 0 0 m1 m2 ->
    related (fun st1 st2 => snd st1 = snd st2)
      (for_rows (batch libm nodes dataset range parameters indices numRows)
         rows (m1, result))
      (for_rows (batch libm nodes dataset range parameters indices numRows)
         rows (m2, result)).
Proof.
  intros Hsize Hne Hall. induction rows as [| row rows IH];
    intros m1 m2 result Hagree; cbn [for_rows].
  - cbn. reflexivity.
  - eapply related_bind; [apply batch_scratch; assumption |].
    intros [m1' r1] [m2' r2] [Hagree' Hr]. cbn [fst snd] in *. subst r2.
    apply IH. exact Hagree'.
Qed.

Lemma setup_node_scratch nodes i s m1 m2 indices idx :
  agree_constants nodes i m1 m2 -> nth_error nodes i = Some s ->
  related (fun st1 st2 =>
             agree_constants nodes (S i) (fst (fst st1)) (fst (fst st2))
             /\ snd (fst st1) = snd (fst st2) /\ snd st1 = snd st2)
    (setup_node dataset parameters i s (m1, indices, idx))
    (setup_node dataset parameters i s (m2, indices, idx)).
Proof.
  intros [Hshape Hcols] Hs. unfold setup_node.
  assert (Hkeep : IsConstant s = false -> agree_constants nodes (S i) m1 m2).
  { intros Hc. split; [exact Hshape |]. intros j a b Ha Hb Hj Hconst.
    destruct (Nat.eq_dec j i) as [-> | Hne].
    - destruct Hconst as (s' & Hs' & Hc'). congruence.
    - apply (Hcols j a b Ha Hb); [lia | exact Hconst]. }
  destruct (IsConstant s) eqn:Hc.
  - apply related_bind_same. intros v. cbn.
    split; [| split; reflexivity].
    split; [apply same_shape_set_nth; [exact Hshape | reflexivity] |].
    intros j a b Ha Hb Hj Hconst. destruct (Nat.eq_dec j i) as [-> | Hne].
    + apply nth_error_set_nth_inv in Ha, Hb. congruence.
    + rewrite nth_error_set_nth_other in Ha, Hb by exact Hne.
      apply (Hcols j a b Ha Hb); [lia | exact Hconst].
  - destruct (IsVariable s); cbn; (split; [auto | split; reflexivity]).
Qed.

Lemma setup_scratch nodes (rest : list Node) :
  forall i m1 m2 indices idx,
    agree_constants nodes i m1 m2 ->
    (forall k s, nth_error rest k = Some s -> nth_error nodes (i + k) = Some s) ->
    related (fun st1 st2 =>
               agree_constants nodes (i + length rest)
                 (fst (fst st1)) (fst (fst st2))
               /\ snd (fst st1) = snd (fst st2) /\ snd st1 = snd st2)
      (for_nodes (setup_node dataset parameters) i rest (m1, indices, idx))
      (for_nodes (setup_node dataset parameters) i rest (m2, indices, idx)).
Proof.
  induction rest as [| s rest IH]; intros i m1 m2 indices idx Hagree Hnodes;
    cbn [for_nodes length].
  - cbn. rewrite Nat.add_0_r. auto.
  - eapply related_bind.
    + apply setup_node_scratch; [exact Hagree |].
      specialize (Hnodes 0 s eq_refl). rewrite Nat.add_0_r in Hnodes.
      exact Hnodes.
    + intros [[m1' ind1] idx1] [[m2' ind2] idx2] (Hagree' & Hind & Hidx).
      cbn [fst snd] in *. subst ind2 idx2. rewrite Nat.add_succ_r.
      apply (IH (S i)); [exact Hagree' |].
      intros k s' Hs'. specialize (Hnodes (S k) s' Hs').
      rewrite Nat.add_succ_r in Hnodes. exact Hnodes.
Qed.

Lemma same_shape_new_matrix (u1 u2 : nat -> nat -> Scalar) (cols : nat) :
  same_shape (new_matrix u1 cols) (new_matrix u2 cols).
Proof.
  unfold same_shape, new_matrix. rewrite !map_map. apply map_ext.
  intros c. rewrite !length_map. reflexivity.
Qed.

(** X6.  On a tree whose operators find their operands before them, what
    [Evaluate] returns does not depend on what the scratch matrix held when it
    was allocated. *)
Theorem Evaluate_scratch_independent (u1 u2 : nat -> nat -> Scalar) tree :
  operands_found tree = true ->
  Evaluate libm u1 tree dataset range parameters
  = Evaluate libm u2 tree dataset range parameters.
Proof.
  unfold operands_found. intros H. apply andb_prop in H.
  destruct H as [Hsize Hall]. apply Z.leb_le in Hsize.
  unfold Evaluate, Evaluate_log, Evaluate_span.
  destruct (Nodes tree) as [| s0 nodes'] eqn:Hnodes; [reflexivity |].
  rewrite <- Hnodes in *.
  assert (Hne : 1 <= length (Nodes tree)) by (rewrite Hnodes; cbn; lia).
  clear Hnodes. apply related_value.
  eapply related_bind.
  - apply (setup_scratch (Nodes tree) (Nodes tree) 0); [| auto].
    split; [apply same_shape_new_matrix |]. intros j a b _ _ Hj. lia.
  - intros [[m1 ind1] idx1] [[m2 ind2] idx2] (Hagree & Hind & Hidx).
    cbn [fst snd Nat.add] in *. subst ind2 idx2.
    assert (Hstart : agree (Nodes tree) 0 0 m1 m2).
    { destruct Hagree as [Hshape Hcols]. split; [exact Hshape |].
      intros j a b Ha Hb. split; [lia |]. intros Hconst.
      apply (Hcols j a b Ha Hb); [| exact Hconst].
      destruct Hconst as (s & Hs & _). apply nth_error_Some. congruence. }
    eapply related_bind with (RA := fun _ _ => True).
    + change 1%Z with (Z.of_nat 1). rewrite size_t_sub_nat by lia.
      unfold col. rewrite !at_nat.
      pose proof (same_shape_column m1 m2 (length (Nodes tree) - 1)
                    (proj1 Hstart)) as Hcol.
      unfold Matrix, Column in *.
      destruct (nth_error m1 _), (nth_error m2 _); cbn; auto.
    + intros _ _ _.
      eapply related_bind; [apply for_rows_scratch; assumption |].
      intros [m1' r1] [m2' r2] Hr. cbn [snd] in Hr. subst r2.
      apply related_refl.
Qed.

End ScratchCall.

(** ** The result buffer and the residual functor *)

Lemma firstn_assigned {A} (n row : nat) (r seg : list A) :
  length r = n -> row + length seg <= n ->
  firstn (row + length seg)
    (firstn row r ++ seg ++ skipn (row + length seg) r)
  = firstn row r ++ seg.
Proof.
  intros Hr Hle. rewrite app_assoc.
  assert (E : length (firstn row r ++ seg) = row + length seg)
    by (rewrite length_app, length_firstn; lia).
  rewrite <- E. rewrite firstn_app, firstn_all, Nat.sub_diag, firstn_O.
  apply app_nil_r.
Qed.

Section Buffer.

Variable libm : Libm.
Variable dataset : Dataset.
Variable range : Range.
Variable parameters : option (list Scalar).

Local Abbreviation filled p :=
  (fun st1 st2 : Matrix * list Scalar =>
     fst st1 = fst st2 /\ length (snd st1) = Size range
     /\ length (snd st2) = Size range
     /\ firstn (Nat.min p (Size range)) (snd st1)
        = firstn (Nat.min p (Size range)) (snd st2)).

(** A batch fills the rows of its own and leaves the result filled up to
    its end. *)
Lemma batch_buffer nodes indices row m r1 r2 :
  length r1 = Size range -> length r2 = Size range ->
  firstn (Nat.min row (Size range)) r1 = firstn (Nat.min row (Size range)) r2 ->
  related (filled (row + BATCHSIZE))
    (batch libm nodes dataset range parameters indices (Size range) row (m, r1))
    (batch libm nodes dataset range parameters indices (Size range) row (m, r2)).
Proof.
  intros H1 H2 Hpre. unfold batch.
  set (remainingRows := Nat.min BATCHSIZE (Size range - row)).
  apply related_bind_same. intros [m' idx'].
  apply related_bind_same. intros lastCol.
  apply related_bind_same_eq. intros seg lseg Hseg.
  assert (Hrem : remainingRows = Nat.min BATCHSIZE (Size range - row))
    by reflexivity.
  assert (Hlseg : length seg = remainingRows).
  { unfold lift in Hseg.
    destruct (segment lastCol 0 remainingRows) as [seg' |] eqn:E;
      [| discriminate].
    inversion Hseg; subst. eapply segment_length. exact E. }
  unfold assign_segment. rewrite H1, H2, Hlseg.
  clearbody remainingRows.
  destruct (row + remainingRows <=? Size range) eqn:E;
    cbn [lift bind ret related fst snd]; [| exact I].
  apply Nat.leb_le in E.
  split; [reflexivity |].
  split; [rewrite !length_app, length_firstn, length_skipn; lia |].
  split; [rewrite !length_app, length_firstn, length_skipn; lia |].
  destruct (Nat.lt_ge_cases row (Size range)) as [Hlt | Hge].
  - replace (Nat.min (row + BATCHSIZE) (Size range))
      with (row + remainingRows) by lia.
    rewrite Nat.min_l in Hpre by lia.
    rewrite <- Hlseg.
    rewrite !(firstn_assigned (Size range)) by (try assumption; lia).
    rewrite Hpre. reflexivity.
  - rewrite Nat.min_r in Hpre by lia.
    rewrite <- H1 in Hpre at 1. rewrite <- H2 in Hpre.
    rewrite !firstn_all in Hpre. subst r2. reflexivity.
Qed.

Lemma for_rows_buffer nodes indices (count : nat) :
  forall first m r1 r2,
    length r1 = Size range -> length r2 = Size range ->
    firstn (Nat.min (first * BATCHSIZE) (Size range)) r1
    = firstn (Nat.min (first * BATCHSIZE) (Size range)) r2 ->
    related (filled ((first + count) * BATCHSIZE))
      (for_rows (batch libm nodes dataset range parameters indices (Size range))
         (map (fun k => k * BATCHSIZE) (seq first count)) (m, r1))
      (for_rows (batch libm nodes dataset range parameters indices (Size range))
         (map (fun k => k * BATCHSIZE) (seq first count)) (m, r2)).
Proof.
  induction count as [| count IH]; intros first m r1 r2 H1 H2 Hpre;
    cbn [seq map for_rows].
  - cbn. rewrite Nat.add_0_r. auto.
  - eapply related_bind; [apply batch_buffer; assumption |].
    intros [m1 r1'] [m2 r2'] (Hm & H1' & H2' & Hpre'). cbn [fst snd] in *.
    subst m2. rewrite <- Nat.add_succ_comm.
    apply IH; try assumption.
    replace (S first * BATCHSIZE) with (first * BATCHSIZE + BATCHSIZE) by lia.
    exact Hpre'.
Qed.

Variable uninitialized : nat -> nat -> Scalar.

(** What the overload of [Evaluate] that fills a span leaves in it does not
    depend on what the span held. *)
Lemma Evaluate_span_buffer tree r1 r2 :
  length r1 = Size range -> length r2 = Size range ->
  value (Evaluate_span libm uninitialized tree dataset range parameters r1)
  = value (Evaluate_span libm uninitialized tree dataset range parameters r2).
Proof.
  intros H1 H2. apply related_value. unfold Evaluate_span.
  apply related_bind_same. intros [[m indices] idx].
  apply related_bind_same. intros _.
  eapply related_bind.
  - unfold batch_rows. apply (for_rows_buffer _ _ _ 0); try assumption.
    reflexivity.
  - intros [m1 r1'] [m2 r2'] (_ & H1' & H2' & Hpre). cbn [fst snd] in *.
    assert (E : r1' = r2').
    { cbn [Nat.add] in Hpre. rewrite Nat.min_r in Hpre.
      - rewrite <- H1' in Hpre at 1. rewrite <- H2' in Hpre.
        rewrite !firstn_all in Hpre. exact Hpre.
      - unfold BATCHSIZE.
        pose proof (Nat.div_mod_eq (Size range + (64 - 1)) 64).
        pose proof (Nat.mod_upper_bound (Size range + (64 - 1)) 64).
        lia. }
    subst r2'. apply related_refl.
Qed.

End Buffer.

(** ** The residual functor *)

(** X7.  [ParameterizedEvaluation::operator()] leaves in the residuals the
    prediction for its parameters minus the target, whatever the residuals
    held; at the coefficient vector of its tree the prediction is the one of
    the plain evaluation. *)
Theorem ParameterizedEvaluation_residuals :
  forall (libm : Libm) (uninitialized : nat -> nat -> Scalar)
         (self : ParameterizedEvaluation) (parameters residuals : list Scalar),
    Size (range self) <= length residuals ->
    let residual_of prediction :=
      match prediction,
            segment (target_ref self) 0 (Size (range self)) with
      | Some estimated, Some target => Some (map2 sub estimated target)
      | _, _ => None
      end in
    ParameterizedEvaluation_call libm uninitialized self parameters residuals
    = residual_of (Evaluate libm uninitialized (tree_ref self)
                     (dataset_ref self) (range self) (Some parameters))
    /\ ParameterizedEvaluation_call libm uninitialized self
         (GetCoefficients (tree_ref self)) residuals
       = residual_of (Evaluate libm uninitialized (tree_ref self)
                        (dataset_ref self) (range self) None).
Proof.
  intros libm uninitialized self parameters residuals Hres residual_of.
  assert (Hcall : forall p,
    ParameterizedEvaluation_call libm uninitialized self p residuals
    = residual_of (Evaluate libm uninitialized (tree_ref self)
                     (dataset_ref self) (range self) (Some p))).
  { intros p. unfold ParameterizedEvaluation_call, residual_of, Evaluate,
      Evaluate_log.
    destruct (segment residuals 0 (Size (range self))) as [res |] eqn:E.
    - rewrite (Evaluate_span_buffer libm (dataset_ref self) (range self)
                 (Some p) uninitialized (tree_ref self) res
                 (repeat (Scalar_of_Z 0) (Size (range self)))).
      + destruct (value _) as [estimated |]; reflexivity.
      + eapply segment_length. exact E.
      + apply repeat_length.
    - unfold segment in E.
      replace (0 + Size (range self) <=? length residuals) with true in E
        by (symmetry; apply Nat.leb_le; lia).
      discriminate. }
  split; [apply Hcall |]. rewrite Hcall.
  replace (Evaluate libm uninitialized (tree_ref self) (dataset_ref self)
             (range self) (Some (GetCoefficients (tree_ref self))))
    with (Evaluate libm uninitialized (tree_ref self) (dataset_ref self)
            (range self) None); [reflexivity |].
  unfold Evaluate, Evaluate_log. apply related_value.
  apply Evaluate_span_related.
Qed.

(** ** What a call reads of the dataset *)

Lemma segment_bound {A} (v s : list A) (offset count : nat) :
  segment v offset count = Some s -> offset + count <= length v.
Proof.
  unfold segment. destruct (offset + count <=? length v) eqn:E;
    [| discriminate].
  intros _. apply Nat.leb_le. exact E.
Qed.

Lemma In_column_reads (log : list Event) (e : Event) :
  In e (column_reads log)
  <-> In e log /\ exists i c offset count, e = ReadColumn i c offset count.
Proof.
  unfold column_reads. rewrite filter_In. split; intros [Hin H]; split; auto.
  - destruct e; [discriminate | eauto].
  - destruct H as (i & c & o & n & ->). reflexivity.
Qed.

Section ReadsInRange.

Variable libm : Libm.
Variable dataset : Dataset.
Variable range : Range.
Variable parameters : option (list Scalar).

Section OneBatch.

Variable nodes : list Node.
Variable indices : list nat.
Variable row remainingRows : nat.

Local Abbreviation step :=
  (eval_node libm nodes dataset range parameters indices row remainingRows).

(** The rows a node reads, if it reads any. *)
Local Abbreviation reads_column i s e :=
  (exists c column,
     e = ReadColumn i c (Start range + row) remainingRows
     /\ IsVariable s = true /\ nth_error indices i = Some c
     /\ nth_error (Values dataset) c = Some column
     /\ Start range + row + remainingRows <= length column).

Lemma eval_node_reads i s m idx st' l :
  step i s (m, idx) = Some (st', l) ->
  (forall e, In e (column_reads l) -> reads_column i s e)
  /\ (parameters = None -> parameter_reads l = []).
Proof.
  unfold eval_node, IsVariable, binary, unary, col, read_parameter, bind,
    lift, tell, ret.
  intros H.
  destruct parameters as [P |]; destruct (Type_ s); destruct_matches H;
    try discriminate; inversion H; subst;
    cbn [app column_reads parameter_reads filter];
    (split; [| try reflexivity; discriminate]);
    intros e He; try (destruct He; fail);
    destruct He as [<- | []]; do 2 eexists;
    repeat (split; [reflexivity || eassumption |]);
    eapply segment_bound; eassumption.
Qed.

Lemma for_nodes_eval_reads (rest : list Node) :
  forall i m idx st' log,
    for_nodes step i rest (m, idx) = Some (st', log) ->
    (forall e, In e (column_reads log) ->
               exists i' s, i <= i' /\ nth_error rest (i' - i) = Some s
                            /\ reads_column i' s e)
    /\ (parameters = None -> parameter_reads log = []).
Proof.
  induction rest as [| s rest IH]; intros i m idx st' log H;
    cbn [for_nodes] in H.
  - inversion H; subst. split; [intros e [] | reflexivity].
  - apply bind_Some_inv in H. destruct H as ([m1 idx1] & l1 & l2 & H1 & H2 & ->).
    apply eval_node_reads in H1. destruct H1 as [Hc1 Hp1].
    apply IH in H2. destruct H2 as [Hc2 Hp2]. split.
    + intros e He. unfold column_reads in He. rewrite filter_app in He.
      apply in_app_or in He. destruct He as [He | He].
      * exists i, s. rewrite Nat.sub_diag. split; [lia |].
        split; [reflexivity | apply Hc1; exact He].
      * destruct (Hc2 e He) as (i' & s' & Hle & Hs' & Hr).
        exists i', s'. split; [lia |]. split; [| exact Hr].
        replace (i' - i) with (S (i' - S i)) by lia. exact Hs'.
    + intros Hnone. rewrite parameter_reads_app, Hp1, Hp2 by exact Hnone.
      reflexivity.
Qed.

End OneBatch.

(** The reads that are allowed: a Variable node reads rows of the range in
    the column of its variable. *)
Local Abbreviation reads_variable nodes indices e :=
  (exists i s c column offset count,
     e = ReadColumn i c offset count
     /\ nth_error nodes i = Some s /\ IsVariable s = true
     /\ nth_error indices i = Some c
     /\ nth_error (Values dataset) c = Some column
     /\ Start range <= offset
     /\ offset + count <= Start range + Size range
     /\ offset + count <= length column).

Lemma batch_reads nodes indices row st st' log :
  row < Size range ->
  batch libm nodes dataset range parameters indices (Size range) row st
  = Some (st', log) ->
  (forall e, In e (column_reads log) -> reads_variable nodes indices e)
  /\ (parameters = None -> parameter_reads log = []).
Proof.
  destruct st as [m result]. unfold batch, batch_nodes. intros Hrow H.
  apply bind_Some_inv in H. destruct H as ([m1 idx1] & l1 & l2 & H1 & H2 & ->).
  apply for_nodes_eval_reads in H1. destruct H1 as [Hc Hp].
  assert (Hl2 : l2 = []).
  { unfold col, bind, lift, ret in H2. destruct_matches H2; try discriminate.
    inversion H2; reflexivity. }
  subst l2. rewrite app_nil_r. split; [| exact Hp].
  intros e He. destruct (Hc e He) as (i & s & _ & Hs & c & column & Hr).
  destruct Hr as (-> & Hv & Hi & Hcol & Hlen).
  rewrite Nat.sub_0_r in Hs.
  exists i, s, c, column, (Start range + row),
    (Nat.min BATCHSIZE (Size range - row)).
  repeat (split; [reflexivity || assumption || lia |]). exact Hlen.
Qed.

Lemma for_rows_reads nodes indices (rows : list nat) :
  Forall (fun row => row < Size range) rows ->
  forall st st' log,
    for_rows (batch libm nodes dataset range parameters indices (Size range))
      rows st = Some (st', log) ->
    (forall e, In e (column_reads log) -> reads_variable nodes indices e)
    /\ (parameters = None -> parameter_reads log = []).
Proof.
  induction 1 as [| row rows Hrow _ IH]; intros st st' log H;
    cbn [for_rows] in H.
  - inversion H; subst. split; [intros e [] | reflexivity].
  - apply bind_Some_inv in H. destruct H as (st1 & l1 & l2 & H1 & H2 & ->).
    apply (batch_reads _ _ _ _ _ _ Hrow) in H1. destruct H1 as [Hc1 Hp1].
    apply IH in H2. destruct H2 as [Hc2 Hp2]. split.
    + intros e He. unfold column_reads in He. rewrite filter_app in He.
      apply in_app_or in He. destruct He as [He | He]; auto.
    + intros Hnone. rewrite parameter_reads_app, Hp1, Hp2 by exact Hnone.
      reflexivity.
Qed.

(** The setup loop reads no column, and no parameter when there is none. *)
Lemma setup_reads_inv (rest : list Node) :
  forall i st st' log,
    for_nodes (setup_node dataset parameters) i rest st = Some (st', log) ->
    column_reads log = [] /\ (parameters = None -> log = []).
Proof.
  induction rest as [| s rest IH]; intros i [[m indices] idx] st' log H;
    cbn [for_nodes] in H.
  - inversion H; subst. split; reflexivity.
  - apply bind_Some_inv in H. destruct H as (st1 & l1 & l2 & H1 & H2 & ->).
    apply IH in H2. destruct H2 as [Hc2 Hp2].
    assert (Hl1 : column_reads l1 = [] /\ (parameters = None -> l1 = [])).
    { unfold setup_node, read_parameter, bind, tell, lift, ret in H1.
      destruct parameters; destruct_matches H1; try discriminate;
        inversion H1; subst; split; try reflexivity; discriminate. }
    destruct Hl1 as [Hc1 Hp1]. split.
    + unfold column_reads in *. rewrite filter_app, Hc1, Hc2. reflexivity.
    + intros Hnone. rewrite Hp1, Hp2 by exact Hnone. reflexivity.
Qed.

Variable uninitialized : nat -> nat -> Scalar.

(** X8.  From the dataset, a call of [Evaluate] reads only the columns of the
    variables of its Variable nodes, and of them only rows of the range;
    without parameters it reads no parameter. *)
Theorem Evaluate_reads_in_range tree out log :
  Evaluate_log libm uninitialized tree dataset range parameters
  = Some (out, log) ->
  (forall i c offset count,
     In (ReadColumn i c offset count) log ->
     exists s column,
       nth_error (Nodes tree) i = Some s /\ IsVariable s = true
       /\ c = GetIndex dataset (HashValue s)
       /\ nth_error (Values dataset) c = Some column
       /\ Start range <= offset
       /\ offset + count <= Start range + Size range
       /\ offset + count <= length column)
  /\ (parameters = None -> parameter_reads log = []).
Proof.
  unfold Evaluate_log, Evaluate_span. intros H.
  apply bind_Some_inv in H.
  destruct H as ([[m1 indices1] idx1] & l1 & l2 & H1 & H2 & ->).
  pose proof (setup_reads_inv _ _ _ _ _ H1) as [Hc1 Hp1].
  pose proof (setup_inv_shape dataset parameters 0 _ _ _ _ _ _ _ _ _ H1)
    as (_ & Hlen & _ & Hvars).
  rewrite repeat_length in Hlen.
  apply bind_Some_inv in H2. destruct H2 as (c0 & l3 & l4 & H3 & H4 & ->).
  apply bind_Some_inv in H4. destruct H4 as ([m2 r2] & l5 & l6 & H5 & H6 & ->).
  assert (Hl3 : l3 = []).
  { unfold col, lift, ret in H3. destruct (at_ m1 _); [| discriminate].
    inversion H3; reflexivity. }
  assert (Hl6 : l6 = []).
  { destruct (MinMax r2). inversion H6; reflexivity. }
  subst l3 l6. cbn [app]. rewrite app_nil_r.
  apply for_rows_reads in H5.
  2:{ apply Forall_forall. intros row Hrow. apply batch_rows_spec in Hrow.
      tauto. }
  destruct H5 as [Hc5 Hp5]. split.
  - intros i c offset count Hin.
    assert (He : In (ReadColumn i c offset count) (column_reads l5)).
    { apply In_column_reads. split; [| eauto 6].
      apply in_app_or in Hin. destruct Hin as [Hin | Hin]; [| exact Hin].
      assert (Hin' : In (ReadColumn i c offset count) (column_reads l1))
        by (apply In_column_reads; eauto 7).
      rewrite Hc1 in Hin'. destruct Hin'. }
    destruct (Hc5 _ He)
      as (i' & s & c' & column & o' & n' & E & Hs & Hv & Hi & Hcol & Hb).
    inversion E; subst i' c' o' n'. exists s, column.
    assert (Hi' : nth_error indices1 i = Some (GetIndex dataset (HashValue s))).
    { apply (Hvars i s Hs Hv). rewrite repeat_length. cbn [Nat.add].
      apply nth_error_Some. congruence. }
    rewrite Hi' in Hi. inversion Hi; subst c.
    repeat (split; [reflexivity || assumption |]). tauto.
  - intros Hnone. rewrite parameter_reads_app, Hp5 by exact Hnone.
    rewrite (Hp1 Hnone). reflexivity.
Qed.

End ReadsInRange.

(** ** When the sanitized output is finite *)

(** X3.  The output of the two sanitization steps is finite everywhere
    exactly when nothing had to be replaced or the midpoint is finite. *)
Theorem sanitized_finite_iff (values : list Scalar) :
  Forall (fun v => IsFinite v = true)
    (LimitToRange values (fst (MinMax values)) (snd (MinMax values)))
  <-> Forall (fun v => IsFinite v = true) values
      \/ IsFinite (div (add (fst (MinMax values)) (snd (MinMax values)))
                     (Scalar_of_Z 2)) = true.
Proof.
  rewrite LimitToRange_covering
    by (intros v Hin Hv; rewrite <- surjective_pairing; unfold MinMax;
        apply fold_MinMax_step_covers; assumption).
  rewrite !Forall_forall. split.
  - intros Hout.
    destruct (forallb IsFinite values) eqn:E.
    + left. intros v Hv. rewrite forallb_forall in E. apply E. exact Hv.
    + right.
      assert (Hex : exists v, In v values /\ IsFinite v = false).
      { clear Hout. induction values as [| v values IH]; [discriminate |].
        cbn [forallb] in E. destruct (IsFinite v) eqn:Hv.
        - destruct (IH E) as (w & Hw & Hf). exists w. split; [right |]; auto.
        - exists v. split; [left |]; auto. }
      destruct Hex as (v & Hv & Hf).
      specialize (Hout _ (in_map _ _ _ Hv)). cbv beta in Hout.
      rewrite Hf in Hout. exact Hout.
  - intros Hin w Hw. apply in_map_iff in Hw. destruct Hw as (v & <- & Hv).
    destruct (IsFinite v) eqn:Hf; [exact Hf |].
    destruct Hin as [Hall | Hmid]; [| exact Hmid].
    rewrite (Hall v Hv) in Hf. discriminate.
Qed.

(** ** The evaluators: counters and finiteness *)

Section EvaluatorCounters.

Variable libm : Libm.
Variable uninitialized : nat -> nat -> Scalar.
Variable Summary : Type.
Variable default_summary : Summary.
Variable iterations_size : Summary -> nat.
Variable Solve : SolverOptions -> ceres_Problem -> Summary * list Scalar.
Variable NormalizedMeanSquaredError : list Scalar -> list Scalar -> Scalar.
Variable RSquared : list Scalar -> list Scalar -> Scalar.

Local Abbreviation estimate' :=
  (estimate libm uninitialized Summary default_summary iterations_size Solve).
(** What a call does to the evaluator and to the individual. *)
Local Abbreviation accounted self ind self' ind' :=
  (problem self' = problem self
   /\ iterations self' = iterations self
   /\ fitnessEvaluations self' = S (fitnessEvaluations self)
   /\ localEvaluations self <= localEvaluations self'
   /\ (iterations self = 0%N ->
       localEvaluations self' = localEvaluations self /\ ind' = ind)).

Lemma estimate_counters self ind est target self' ind' :
  estimate' self ind = Some (est, target, self', ind') ->
  accounted self ind self' ind'.
Proof.
  unfold estimate. cbn [problem iterations fitnessEvaluations localEvaluations].
  destruct (GetValues _ _) as [column |]; [| discriminate].
  destruct (segment column _ _) as [targetValues |]; [| discriminate].
  destruct (0 <? iterations self)%N eqn:Hit.
  - destruct (OptimizeAutodiff _ _ _ _ _ _ _ _ _ _) as [[summary genotype] log].
    destruct (Evaluate _ _ _ _ _ _) as [estimated |]; [| discriminate].
    intros H; inversion H; subst; cbn.
    repeat split; try lia;
      match goal with
      | Hz : iterations self = 0%N |- _ => rewrite Hz in Hit; discriminate
      end.
  - destruct (Evaluate _ _ _ _ _ _) as [estimated |]; [| discriminate].
    intros H; inversion H; subst; cbn.
    repeat split; try lia. destruct ind; reflexivity.
Qed.

(** X10.  A call of either evaluator that returns counts one fitness
    evaluation, never lowers the count of local evaluations, and keeps the
    problem and the number of iterations; with [iterations = 0] it leaves the
    individual and the count of local evaluations as they were. *)
Theorem evaluator_counters self ind fitness self' ind' :
  NormalizedMeanSquaredErrorEvaluator_call libm uninitialized Summary
    default_summary iterations_size Solve NormalizedMeanSquaredError self ind
  = Some (fitness, self', ind')
  \/ RSquaredEvaluator_call libm uninitialized Summary default_summary
       iterations_size Solve RSquared self ind
     = Some (fitness, self', ind') ->
  problem self' = problem self
  /\ iterations self' = iterations self
  /\ fitnessEvaluations self' = S (fitnessEvaluations self)
  /\ localEvaluations self <= localEvaluations self'
  /\ (iterations self = 0%N ->
      localEvaluations self' = localEvaluations self /\ ind' = ind).
Proof.
  unfold NormalizedMeanSquaredErrorEvaluator_call, RSquaredEvaluator_call.
  destruct (estimate' self ind) as [[[[est target] self1] ind1] |] eqn:He;
    [| intros [H | H]; discriminate].
  apply estimate_counters in He.
  intros [H | H]; inversion H; subst; exact He.
Qed.

(** X11.  The fitness that [NormalizedMeanSquaredErrorEvaluator] returns is
    finite. *)
Theorem NormalizedMeanSquaredErrorEvaluator_finite self ind fitness self' ind' :
  NormalizedMeanSquaredErrorEvaluator_call libm uninitialized Summary
    default_summary iterations_size Solve NormalizedMeanSquaredError self ind
  = Some (fitness, self', ind') ->
  IsFinite fitness = true.
Proof.
  unfold NormalizedMeanSquaredErrorEvaluator_call.
  destruct (estimate' self ind) as [[[[est target] self1] ind1] |];
    [| discriminate].
  destruct (IsFinite (NormalizedMeanSquaredError est target)) eqn:E;
    cbn [negb]; intros H; inversion H; subst; [exact E | reflexivity].
Qed.

End EvaluatorCounters.

(** ** Subtree crossover: the two lists of positions *)

Lemma In_positions (select : Node -> bool) (rest : list Node) :
  forall first i,
    In i (positions select first rest)
    <-> exists s, first <= i /\ nth_error rest (i - first) = Some s
                  /\ select s = true.
Proof.
  induction rest as [| s rest IH]; intros first i; cbn [positions].
  - split; [intros [] |]. intros (s & _ & Hs & _).
    destruct (i - first); discriminate.
  - rewrite in_app_iff, IH. split.
    + intros [Hhead | (s' & Hle & Hs' & Hsel)].
      * destruct (select s) eqn:Hsel; [| destruct Hhead].
        destruct Hhead as [<- | []]. exists s. rewrite Nat.sub_diag. auto.
      * exists s'. replace (i - first) with (S (i - S first)) by lia.
        repeat split; auto. lia.
    + intros (s' & Hle & Hs' & Hsel).
      destruct (Nat.eq_dec i first) as [-> | Hne].
      * left. rewrite Nat.sub_diag in Hs'. cbn in Hs'. inversion Hs'; subst.
        rewrite Hsel. left. reflexivity.
      * right. exists s'. replace (i - first) with (S (i - S first)) in Hs'
          by lia.
        repeat split; auto. lia.
Qed.

Lemma positions_nonempty (select : Node -> bool) (rest : list Node) first :
  existsb select rest = true -> 1 <= length (positions select first rest).
Proof.
  revert first; induction rest as [| s rest IH]; intros first H;
    cbn [existsb positions] in *; [discriminate |].
  rewrite length_app. destruct (select s); cbn in *; [lia |].
  specialize (IH (S first) H). lia.
Qed.

Lemma length_positions (select : Node -> bool) (rest : list Node) first :
  length (positions select first rest)
  + length (positions (fun s => negb (select s)) first rest)
  = length rest.
Proof.
  revert first; induction rest as [| s rest IH]; intros first;
    cbn [positions length]; [reflexivity |].
  rewrite !length_app. specialize (IH (S first)).
  destruct (select s); cbn; lia.
Qed.

Lemma set_nth_app_r {A} (a b : list A) (j : nat) (x : A) :
  set_nth (a ++ b) (length a + j) x = a ++ set_nth b j x.
Proof. induction a as [| y a IH]; cbn; [reflexivity | rewrite IH; reflexivity]. Qed.

Lemma set_nth_middle {A} (a b : list A) (y x : A) :
  set_nth (a ++ y :: b) (length a) x = a ++ x :: b.
Proof. induction a as [| z a IH]; cbn; [reflexivity | rewrite IH; reflexivity]. Qed.

Lemma set_nth_repeat {A} (k : nat) (z x : A) (R : list A) :
  set_nth (z :: repeat z k ++ R) k x = repeat z k ++ x :: R.
Proof. induction k as [| k IH]; cbn in *; [reflexivity | rewrite IH; reflexivity]. Qed.

Lemma store_nat {A} (v : list A) (i : nat) (x : A) :
  i < length v -> store v (Z.of_nat i) x = Some (set_nth v i x).
Proof.
  intros Hi. unfold store.
  replace ((0 <=? Z.of_nat i)%Z && (Z.of_nat i <? Z.of_nat (length v))%Z)
    with true
    by (symmetry; apply andb_true_intro; split;
        [apply Z.leb_le | apply Z.ltb_lt]; lia).
  rewrite Nat2Z.id. reflexivity.
Qed.

Section Partition.

Variable IsLeaf : Node -> bool.

Local Abbreviation internal := (fun s => negb (IsLeaf s)).

(** The first loop of [SelectRandomBranch] fills the free entries of
    [indices] from both ends: leaves from the front, in the order of the
    tree, the other nodes from the back. *)
Lemma partition_fills (rest : list Node) :
  forall i (L R : list nat),
    (Z.of_nat (length L + length rest) < 2 ^ 64)%Z ->
    exists tail,
      partition IsLeaf i rest
        (L ++ repeat 0 (length rest) ++ R, Z.of_nat (length L),
         size_t_sub (Z.of_nat (length L + length rest)) 1)
      = Some (L ++ positions IsLeaf i rest
                ++ rev (positions internal i rest) ++ R,
              Z.of_nat (length L + length (positions IsLeaf i rest)), tail).
Proof.
  induction rest as [| s rest IH]; intros i L R Hsize;
    cbn [partition positions length repeat] in *.
  - eexists. rewrite Nat.add_0_r. reflexivity.
  - unfold partition_node. destruct (IsLeaf s) eqn:Hs; cbn [negb app].
    + rewrite store_nat by (rewrite length_app; cbn; lia).
      rewrite set_nth_middle.
      destruct (IH (S i) (L ++ [i]) R) as [tail Htail];
        [rewrite length_app; cbn [length]; lia |].
      exists tail. rewrite length_app in Htail. cbn [length] in Htail.
      replace ((Z.of_nat (length L) + 1) mod 2 ^ 64)%Z
        with (Z.of_nat (length L + 1))
        by (rewrite Z.mod_small; lia).
      replace (length L + S (length rest)) with (length L + 1 + length rest)
        by lia.
      rewrite <- app_assoc in Htail. cbn [app] in Htail. rewrite Htail.
      rewrite <- !app_assoc. cbn [app length].
      do 3 f_equal. lia.
    + assert (Htail0 : size_t_sub (Z.of_nat (length L + S (length rest))) 1
                       = Z.of_nat (length L + length rest))
        by (unfold size_t_sub; rewrite Z.mod_small; lia).
      rewrite Htail0.
      rewrite store_nat
        by (rewrite !length_app; cbn [length]; rewrite length_app, repeat_length;
            lia).
      rewrite set_nth_app_r.
      rewrite set_nth_repeat.
      destruct (IH (S i) L (i :: R)) as [tail Htail]; [lia |].
      exists tail. rewrite Htail.
      cbn [rev]. rewrite <- !app_assoc. reflexivity.
Qed.

(** X12.  After the first loop of [SelectRandomBranch], [indices] holds the
    positions of the leaves in the order of the tree, then the positions of
    the other nodes in reverse order, and [head] is the number of leaves. *)
Theorem partition_all (nodes : list Node) :
  (Z.of_nat (length nodes) < 2 ^ 64)%Z ->
  exists tail,
    partition IsLeaf 0 nodes
      (repeat 0 (length nodes), 0%Z, size_t_sub (Z.of_nat (length nodes)) 1)
    = Some (positions IsLeaf 0 nodes ++ rev (positions internal 0 nodes),
            Z.of_nat (length (positions IsLeaf 0 nodes)), tail).
Proof.
  intros Hsize. destruct (partition_fills nodes 0 [] [] Hsize) as [tail H].
  exists tail. cbn [app length Nat.add Z.of_nat] in H.
  rewrite !app_nil_r in H. exact H.
Qed.

End Partition.

(** ** Subtree crossover: the branch that is selected *)

Section Select.

Variable Rand : Type.
Variable uniformReal : Rand -> Scalar * Rand.
Variable shuffle : Rand -> list nat -> list nat * Rand.
Variable uniformInt : Z -> Z -> Rand -> Z * Rand.
Variable IsLeaf : Node -> bool.

Hypothesis shuffle_permutes :
  forall random l, Permutation l (fst (shuffle random l)).
Hypothesis uniformInt_in_range :
  forall a b random,
    (a <= b)%Z -> (a <= fst (uniformInt a b random) <= b)%Z.

Local Abbreviation internal := (fun s => negb (IsLeaf s)).
Local Abbreviation select :=
  (SelectRandomBranch Rand uniformReal shuffle uniformInt IsLeaf).

(** A node that the limits allow. *)
Local Abbreviation allowed node maxBranchDepth maxBranchLength :=
  ((Z.of_nat (Length node) + 1 <= maxBranchLength)%Z
   /\ (Z.of_nat (Depth node) <= maxBranchDepth)%Z).

Lemma first_within_spec nodes d l (candidates : list nat) :
  (forall idx, In idx candidates -> idx < length nodes) ->
  first_within nodes d l candidates = Some None
  \/ exists idx node,
       first_within nodes d l candidates = Some (Some idx)
       /\ In idx candidates /\ nth_error nodes idx = Some node
       /\ allowed node d l.
Proof.
  induction candidates as [| idx candidates IH]; intros Hvalid;
    cbn [first_within]; [left; reflexivity |].
  destruct (nth_error nodes idx) as [node |] eqn:Hnode.
  2:{ apply nth_error_None in Hnode.
      specialize (Hvalid idx (or_introl eq_refl)). lia. }
  destruct ((Z.of_nat (Length node) + 1 >? l)%Z
            || (Z.of_nat (Depth node) >? d)%Z) eqn:E.
  - destruct IH as [IH | (idx' & node' & IH & Hin & Hrest)].
    + intros i Hi. apply Hvalid. right. exact Hi.
    + left. exact IH.
    + right. exists idx', node'. split; [exact IH |].
      split; [right; exact Hin | exact Hrest].
  - right. exists idx, node. apply orb_false_elim in E. destruct E as [E1 E2].
    rewrite Z.gtb_ltb in E1, E2. apply Z.ltb_ge in E1, E2.
    repeat split; auto. left. reflexivity.
Qed.

Lemma select_leaf_spec (leaves others : list nat) random :
  1 <= length leaves -> (Z.of_nat (length leaves) < 2 ^ 64)%Z ->
  exists i random',
    select_leaf Rand uniformInt (Z.of_nat (length leaves)) random
      (leaves ++ others)
    = Some (Some i, random')
    /\ In i leaves.
Proof.
  intros Hne Hsize. unfold select_leaf.
  assert (Hhead : size_t_sub (Z.of_nat (length leaves)) 1
                  = Z.of_nat (length leaves - 1))
    by (unfold size_t_sub; rewrite Z.mod_small; lia).
  rewrite Hhead.
  pose proof (uniformInt_in_range 0 (Z.of_nat (length leaves - 1)) random
                ltac:(lia)) as Hidx.
  destruct (uniformInt 0 (Z.of_nat (length leaves - 1)) random)
    as [idx random'].
  cbn [fst] in Hidx.
  assert (Hnat : idx = Z.of_nat (Z.to_nat idx)) by lia.
  rewrite Hnat, at_nat.
  assert (Hlt : Z.to_nat idx < length leaves) by lia.
  rewrite nth_error_app1 by exact Hlt.
  destruct (nth_error leaves (Z.to_nat idx)) as [i |] eqn:Hi;
    [| apply nth_error_None in Hi; lia].
  exists i, random'. split; [reflexivity |]. eapply nth_error_In. exact Hi.
Qed.

(** With a limit that is zero [SelectRandomBranch] draws nothing. *)
Lemma SelectRandomBranch_zero_limit random tree internalProb
    maxBranchDepth maxBranchLength :
  maxBranchDepth = 0%Z \/ maxBranchLength = 0%Z ->
  select random tree internalProb maxBranchDepth maxBranchLength
  = Some (None, random).
Proof.
  unfold SelectRandomBranch.
  intros [-> | ->]; [reflexivity |]. rewrite orb_true_r. reflexivity.
Qed.

Lemma SelectRandomBranch_nonzero random tree internalProb
    maxBranchDepth maxBranchLength :
  (Z.of_nat (length (Nodes tree)) < 2 ^ 64)%Z ->
  existsb IsLeaf (Nodes tree) = true ->
  maxBranchDepth <> 0%Z -> maxBranchLength <> 0%Z ->
  exists idx random' node,
    select random tree internalProb maxBranchDepth maxBranchLength
    = Some (Some idx, random')
    /\ nth_error (Nodes tree) idx = Some node
    /\ (IsLeaf node = true
        \/ IsLeaf node = false
           /\ allowed node maxBranchDepth maxBranchLength).
Proof.
  intros Hsize Hleaf. unfold SelectRandomBranch.
  intros Hd Hl.
  replace ((maxBranchDepth =? 0)%Z || (maxBranchLength =? 0)%Z) with false
    by (symmetry; apply orb_false_intro; apply Z.eqb_neq; assumption).
  destruct (uniformReal random) as [u random1].
  destruct (partition_fills IsLeaf (Nodes tree) 0 [] [] Hsize)
    as [tail Hpart].
  cbn [app length Nat.add Z.of_nat] in Hpart. rewrite !app_nil_r in Hpart.
  rewrite Hpart. clear Hpart.
  set (leaves := positions IsLeaf 0 (Nodes tree)).
  set (others := rev (positions internal 0 (Nodes tree))).
  assert (Hleaves : 1 <= length leaves)
    by (apply positions_nonempty; exact Hleaf).
  assert (Hlsize : (Z.of_nat (length leaves) < 2 ^ 64)%Z).
  { pose proof (length_positions IsLeaf (Nodes tree) 0).
    unfold leaves. lia. }
  assert (Hleaf_node : forall i, In i leaves ->
            exists node, nth_error (Nodes tree) i = Some node
                         /\ IsLeaf node = true).
  { intros i Hi. apply In_positions in Hi.
    destruct Hi as (s & _ & Hs & Hsel). rewrite Nat.sub_0_r in Hs. eauto. }
  assert (Hfallback : forall random2 others',
            exists idx random' node,
              select_leaf Rand uniformInt (Z.of_nat (length leaves)) random2
                (leaves ++ others')
              = Some (Some idx, random')
              /\ nth_error (Nodes tree) idx = Some node
              /\ (IsLeaf node = true
                  \/ IsLeaf node = false
                     /\ allowed node maxBranchDepth maxBranchLength)).
  { intros random2 others'.
    destruct (select_leaf_spec leaves others' random2 Hleaves Hlsize)
      as (i & random' & Hsel & Hin).
    destruct (Hleaf_node i Hin) as (node & Hnode & Hl').
    exists i, random', node. auto. }
  destruct (lt u internalProb); [| apply Hfallback].
  rewrite Nat2Z.id.
  rewrite skipn_app, skipn_all, Nat.sub_diag, firstn_app, firstn_all,
    Nat.sub_diag. cbn [skipn firstn app]. rewrite app_nil_r.
  pose proof (shuffle_permutes random1 others) as Hperm.
  destruct (shuffle random1 others) as [shuffled random2]. cbn [fst] in Hperm.
  assert (Hother_node : forall i, In i shuffled ->
            exists node, nth_error (Nodes tree) i = Some node
                         /\ IsLeaf node = false).
  { intros i Hi. apply (Permutation_in _ (Permutation_sym Hperm)) in Hi.
    unfold others in Hi. apply in_rev in Hi. apply In_positions in Hi.
    destruct Hi as (s & _ & Hs & Hsel). rewrite Nat.sub_0_r in Hs.
    exists s. split; [exact Hs |]. destruct (IsLeaf s); [discriminate | auto]. }
  destruct (first_within_spec (Nodes tree) maxBranchDepth maxBranchLength
              shuffled) as [-> | (idx & node & -> & Hin & Hnode & Hok)].
  + intros i Hi. destruct (Hother_node i Hi) as (node & Hnode & _).
    apply nth_error_Some. congruence.
  + apply Hfallback.
  + exists idx, random2, node. split; [reflexivity |].
    split; [exact Hnode |]. right. split; [| exact Hok].
    destruct (Hother_node idx Hin) as (node' & Hnode' & Hl'). congruence.
Qed.

(** X13.  [SelectRandomBranch] on a tree that has a leaf: with a limit that
    is zero, no position, and the generator is left as it was; otherwise the
    position of a leaf, or of another node that is within both limits. *)
Theorem SelectRandomBranch_selects random tree internalProb
    maxBranchDepth maxBranchLength :
  (Z.of_nat (length (Nodes tree)) < 2 ^ 64)%Z ->
  existsb IsLeaf (Nodes tree) = true ->
  (maxBranchDepth = 0%Z \/ maxBranchLength = 0%Z ->
   select random tree internalProb maxBranchDepth maxBranchLength
   = Some (None, random))
  /\ (maxBranchDepth <> 0%Z -> maxBranchLength <> 0%Z ->
      exists idx random' node,
        select random tree internalProb maxBranchDepth maxBranchLength
        = Some (Some idx, random')
        /\ nth_error (Nodes tree) idx = Some node
        /\ (IsLeaf node = true
            \/ IsLeaf node = false
               /\ allowed node maxBranchDepth maxBranchLength)).
Proof.
  intros Hsize Hleaf. split.
  - apply SelectRandomBranch_zero_limit.
  - intros Hd Hl. apply SelectRandomBranch_nonzero; assumption.
Qed.


Variable Level : Tree -> nat -> Z.
Variable Tree_Length : Tree -> Z.
Variable UpdateNodes : Tree -> Tree.

Local Abbreviation crossover :=
  (SubtreeCrossover_call Rand uniformReal shuffle uniformInt IsLeaf Level
     Tree_Length UpdateNodes).

Lemma copy_n_spec {A} (v l : list A) (first count : Z) :
  copy_n v first count = Some l ->
  l = firstn (Z.to_nat count) (skipn (Z.to_nat first) v)
  /\ (0 <= first)%Z /\ (0 <= count)%Z
  /\ (first + count <= Z.of_nat (length v))%Z.
Proof.
  unfold copy_n.
  destruct ((0 <=? first)%Z && (0 <=? count)%Z
            && (first + count <=? Z.of_nat (length v))%Z) eqn:E;
    [| discriminate].
  apply andb_prop in E. destruct E as [E E3]. apply andb_prop in E.
  destruct E as [E1 E2]. apply Z.leb_le in E1, E2, E3.
  intros H; inversion H; subst. repeat split; assumption.
Qed.

(** X14.  The child of a crossover is the first parent itself, or a new
    tree: the first parent with the subtree at some [i] cut out and the
    subtree of the second parent at some [j] in its place.  It is not longer
    than [maxLength] when the first parent is not. *)
Theorem SubtreeCrossover_length self random lhs rhs child random' :
  Tree_Length lhs = Z.of_nat (length (Nodes lhs)) ->
  (Z.of_nat (length (Nodes lhs)) <= maxLength self < 2 ^ 64)%Z ->
  (Z.of_nat (length (Nodes rhs)) < 2 ^ 64)%Z ->
  (forall i s, nth_error (Nodes lhs) i = Some s -> Length s <= i) ->
  (forall s, In s (Nodes rhs) -> IsLeaf s = true -> Length s = 0) ->
  existsb IsLeaf (Nodes rhs) = true ->
  crossover self random lhs rhs = Some (child, random') ->
  child = lhs
  \/ exists i j lhs_i rhs_j nodes,
       child = UpdateNodes {| Nodes := nodes |}
       /\ nth_error (Nodes lhs) i = Some lhs_i
       /\ nth_error (Nodes rhs) j = Some rhs_j
       /\ Length rhs_j <= j
       /\ nodes = firstn (i - Length lhs_i) (Nodes lhs)
                  ++ firstn (Length rhs_j + 1)
                       (skipn (j - Length rhs_j) (Nodes rhs))
                  ++ skipn (i + 1) (Nodes lhs)
       /\ length nodes
          = length (Nodes lhs) - (Length lhs_i + 1) + (Length rhs_j + 1)
       /\ (Z.of_nat (length nodes) <= maxLength self)%Z.
Proof.
  intros Hlen Hmax Hrhs Hfit Hleaf0 Hhas. unfold SubtreeCrossover_call.
  destruct (SelectRandomBranch _ _ _ _ _ random lhs _ _ _)
    as [[[i |] random1] |]; [| intros H; inversion H; auto | discriminate].
  destruct (nth_error (Nodes lhs) i) as [lhs_i |] eqn:Hi; [| discriminate].
  pose proof (Hfit i lhs_i Hi) as HLi.
  assert (Hi' : i < length (Nodes lhs)) by (apply nth_error_Some; congruence).
  rewrite Hlen.
  set (d := size_t_sub (maxDepth self) (Level lhs i)).
  assert (Hl : size_t_sub (maxLength self)
                 (size_t_sub (Z.of_nat (length (Nodes lhs)))
                    (Z.of_nat (Length lhs_i) + 1))
               = (maxLength self - Z.of_nat (length (Nodes lhs))
                  + Z.of_nat (Length lhs_i) + 1)%Z).
  { unfold size_t_sub.
    assert (Hp : ((Z.of_nat (length (Nodes lhs))
                   - (Z.of_nat (Length lhs_i) + 1)) mod 2 ^ 64
                  = Z.of_nat (length (Nodes lhs))
                    - (Z.of_nat (Length lhs_i) + 1))%Z)
      by (apply Z.mod_small; lia).
    rewrite Hp. rewrite Z.mod_small by lia. lia. }
  rewrite Hl.
  set (l := (maxLength self - Z.of_nat (length (Nodes lhs))
             + Z.of_nat (Length lhs_i) + 1)%Z).
  destruct (Z.eq_dec d 0) as [Hd | Hd];
    [rewrite SelectRandomBranch_zero_limit by auto;
     intros H; inversion H; auto |].
  destruct (Z.eq_dec l 0) as [Hl0 | Hl0];
    [rewrite SelectRandomBranch_zero_limit by auto;
     intros H; inversion H; auto |].
  destruct (SelectRandomBranch_nonzero random1 rhs (internalProbability self)
              d l Hrhs Hhas Hd Hl0) as (j & random2 & rhs_j & -> & Hj & Hkind).
  rewrite Hj.
  destruct (copy_n (Nodes lhs) 0 _) as [a |] eqn:Ha; [| discriminate].
  destruct (copy_n (Nodes rhs) _ _) as [b |] eqn:Hb; [| discriminate].
  destruct (copy_n (Nodes lhs) (Z.of_nat i + 1) _) as [c |] eqn:Hc;
    [| discriminate].
  intros H; inversion H; subst child random'. right.
  apply copy_n_spec in Ha, Hb, Hc.
  destruct Ha as (Ha & _), Hb as (Hb & Hb0 & _), Hc as (Hc & _).
  unfold size_t_sub in Ha, Hc. rewrite Z.mod_small in Ha, Hc by lia.
  replace (Z.to_nat (Z.of_nat i - Z.of_nat (Length lhs_i)))
    with (i - Length lhs_i) in Ha by lia.
  replace (Z.to_nat (Z.of_nat (Length rhs_j) + 1))
    with (Length rhs_j + 1) in Hb by lia.
  replace (Z.to_nat (Z.of_nat j - Z.of_nat (Length rhs_j)))
    with (j - Length rhs_j) in Hb by lia.
  replace (Z.to_nat (Z.of_nat i + 1)) with (i + 1) in Hc by lia.
  rewrite firstn_all2 in Hc by (rewrite length_skipn; lia).
  cbn [Z.to_nat skipn] in Ha.
  assert (Hj' : j < length (Nodes rhs)) by (apply nth_error_Some; congruence).
  assert (HLj : (Z.of_nat (Length rhs_j) + 1 <= l)%Z).
  { destruct Hkind as [Hleaf | [_ [Hok _]]]; [| exact Hok].
    rewrite (Hleaf0 rhs_j (nth_error_In _ _ Hj) Hleaf). unfold l. lia. }
  unfold l in HLj.
  assert (Hsize : length (a ++ b ++ c)
                  = length (Nodes lhs) - (Length lhs_i + 1)
                    + (Length rhs_j + 1)).
  { subst a b c.
    rewrite !length_app, !length_firstn, !length_skipn. lia. }
  exists i, j, lhs_i, rhs_j, (a ++ b ++ c).
  split; [reflexivity |]. split; [exact Hi |]. split; [exact Hj |].
  split; [lia |]. split; [subst a b c; reflexivity |].
  split; [exact Hsize |]. rewrite Hsize. lia.
Qed.

End Select.

(** ** Instances of the theorems above *)

Lemma MinMax_bounds_witness :
  In (Scalar_of_Z 5) [Scalar_of_Z 5; S754_nan; Scalar_of_Z 1]
  /\ IsFinite (Scalar_of_Z 5) = true
  /\ lt (Scalar_of_Z 5)
       (fst (MinMax [Scalar_of_Z 5; S754_nan; Scalar_of_Z 1])) = false
  /\ lt (snd (MinMax [Scalar_of_Z 5; S754_nan; Scalar_of_Z 1]))
       (Scalar_of_Z 5) = false.
Proof.
  split; [left; reflexivity |]. split; [reflexivity |].
  apply (MinMax_bounds [Scalar_of_Z 5; S754_nan; Scalar_of_Z 1]
           (Scalar_of_Z 5)); [left; reflexivity | reflexivity].
Defined.

Lemma Evaluate_length_witness :
  Evaluate Examples.libm Examples.scratch Examples.x_minus_y Examples.xy
    (Examples.rows 3) None
  = Some (map Scalar_of_Z [4; 3; 2]%Z)
  /\ length (map Scalar_of_Z [4; 3; 2]%Z) = Size (Examples.rows 3).
Proof.
  split; [vm_compute; reflexivity |].
  apply (Evaluate_length Examples.libm Examples.xy (Examples.rows 3) None
           Examples.scratch Examples.x_minus_y).
  vm_compute. reflexivity.
Defined.

Lemma Evaluate_defined_witness :
  evaluable Examples.two_x_times_3 Examples.xy (Examples.rows 3)
    (Some (map Scalar_of_Z [3; 2]%Z)) = true
  /\ exists out,
       Evaluate Examples.libm Examples.scratch Examples.two_x_times_3
         Examples.xy (Examples.rows 3) (Some (map Scalar_of_Z [3; 2]%Z))
       = Some out
       /\ length out = Size (Examples.rows 3).
Proof.
  split; [vm_compute; reflexivity |].
  apply (Evaluate_defined Examples.libm Examples.xy (Examples.rows 3)
           (Some (map Scalar_of_Z [3; 2]%Z)) Examples.scratch
           Examples.two_x_times_3).
  vm_compute. reflexivity.
Defined.

Lemma Evaluate_scratch_independent_witness :
  operands_found Examples.x_minus_y = true
  /\ Evaluate Examples.libm Examples.scratch Examples.x_minus_y Examples.xy
       (Examples.rows 3) None
     = Evaluate Examples.libm (fun _ _ => Scalar_of_Z 7) Examples.x_minus_y
         Examples.xy (Examples.rows 3) None.
Proof.
  split; [vm_compute; reflexivity |].
  apply (Evaluate_scratch_independent Examples.libm Examples.xy
           (Examples.rows 3) None Examples.scratch (fun _ _ => Scalar_of_Z 7)
           Examples.x_minus_y).
  vm_compute. reflexivity.
Defined.

Lemma ParameterizedEvaluation_residuals_witness :
  Size (range CrossoverExamples.residual) <= length (repeat S754_nan 3)
  /\ ParameterizedEvaluation_call Examples.libm Examples.scratch
       CrossoverExamples.residual
       (GetCoefficients (tree_ref CrossoverExamples.residual))
       (repeat S754_nan 3)
     = Some (map Scalar_of_Z [29; 28; 27]%Z).
Proof.
  split; [vm_compute; lia |].
  destruct (ParameterizedEvaluation_residuals Examples.libm Examples.scratch
              CrossoverExamples.residual (map Scalar_of_Z [3; 2]%Z)
              (repeat S754_nan 3)) as [_ H]; [vm_compute; lia |].
  rewrite H. vm_compute. reflexivity.
Defined.

Lemma Evaluate_reads_in_range_witness :
  exists out log,
    Evaluate_log Examples.libm Examples.scratch Examples.x_minus_y Examples.xy
      (Examples.rows 3) None
    = Some (out, log)
    /\ In (ReadColumn 0 1 0 3) log
    /\ parameter_reads log = [].
Proof.
  destruct (Evaluate_log Examples.libm Examples.scratch Examples.x_minus_y
              Examples.xy (Examples.rows 3) None)
    as [[out log] |] eqn:E.
  - exists out, log. split; [reflexivity |].
    destruct (Evaluate_reads_in_range Examples.libm Examples.xy
                (Examples.rows 3) None Examples.scratch Examples.x_minus_y
                out log E) as [_ Hp].
    split; [| apply Hp; reflexivity].
    vm_compute in E. inversion E. left. reflexivity.
  - vm_compute in E. discriminate.
Defined.

Lemma Evaluate_parameter_reads_witness :
  exists out log,
    Evaluate_log Examples.libm Examples.scratch Examples.two_x_times_3
      Examples.xy (Examples.rows 3) (Some (map Scalar_of_Z [3; 2]%Z))
    = Some (out, log)
    /\ parameter_reads log = [ReadParameter 0 0; ReadParameter 1 1].
Proof.
  destruct (Evaluate_log Examples.libm Examples.scratch Examples.two_x_times_3
              Examples.xy (Examples.rows 3) (Some (map Scalar_of_Z [3; 2]%Z)))
    as [[out log] |] eqn:E.
  - exists out, log. split; [reflexivity |].
    apply (Evaluate_parameter_reads Examples.libm Examples.scratch Examples.xy
             (map Scalar_of_Z [3; 2]%Z) Examples.two_x_times_3
             (Examples.rows 3) out log E).
  - vm_compute in E. discriminate.
Defined.

Lemma evaluator_counters_witness :
  exists fitness self' ind',
    NormalizedMeanSquaredErrorEvaluator_call Examples.libm Examples.scratch
      unit tt (fun _ => 0) Examples.Solve (Examples.metric (Scalar_of_Z 2))
      (Examples.evaluator 0) {| Genotype := Examples.just_x |}
    = Some (fitness, self', ind')
    /\ fitnessEvaluations self' = 1
    /\ ind' = {| Genotype := Examples.just_x |}.
Proof.
  destruct (NormalizedMeanSquaredErrorEvaluator_call Examples.libm
              Examples.scratch unit tt (fun _ => 0) Examples.Solve
              (Examples.metric (Scalar_of_Z 2)) (Examples.evaluator 0)
              {| Genotype := Examples.just_x |})
    as [[[fitness self'] ind'] |] eqn:E.
  - exists fitness, self', ind'. split; [reflexivity |].
    destruct (evaluator_counters Examples.libm Examples.scratch unit tt
                (fun _ => 0) Examples.Solve (Examples.metric (Scalar_of_Z 2))
                (Examples.metric (Scalar_of_Z 2)) (Examples.evaluator 0)
                {| Genotype := Examples.just_x |} fitness self' ind'
                (or_introl E)) as (_ & _ & Hf & _ & Hz).
    split; [exact Hf | apply Hz; reflexivity].
  - vm_compute in E. discriminate.
Defined.

Lemma NormalizedMeanSquaredErrorEvaluator_finite_witness :
  exists fitness self' ind',
    NormalizedMeanSquaredErrorEvaluator_call Examples.libm Examples.scratch
      unit tt (fun _ => 0) Examples.Solve
      (Examples.metric (S754_infinity false))
      (Examples.evaluator 0) {| Genotype := Examples.just_x |}
    = Some (fitness, self', ind')
    /\ IsFinite fitness = true.
Proof.
  destruct (NormalizedMeanSquaredErrorEvaluator_call Examples.libm
              Examples.scratch unit tt (fun _ => 0) Examples.Solve
              (Examples.metric (S754_infinity false)) (Examples.evaluator 0)
              {| Genotype := Examples.just_x |})
    as [[[fitness self'] ind'] |] eqn:E.
  - exists fitness, self', ind'. split; [reflexivity |].
    apply (NormalizedMeanSquaredErrorEvaluator_finite Examples.libm
             Examples.scratch unit tt (fun _ => 0) Examples.Solve
             (Examples.metric (S754_infinity false)) (Examples.evaluator 0)
             {| Genotype := Examples.just_x |} fitness self' ind' E).
  - vm_compute in E. discriminate.
Defined.

Lemma partition_all_witness :
  (Z.of_nat (length (Nodes Examples.two_x_times_3)) < 2 ^ 64)%Z
  /\ exists tail,
       partition CrossoverExamples.IsLeaf 0 (Nodes Examples.two_x_times_3)
         (repeat 0 3, 0%Z, 2%Z)
       = Some ([0; 1; 2], 2%Z, tail).
Proof.
  split; [vm_compute; reflexivity |].
  apply (partition_all CrossoverExamples.IsLeaf (Nodes Examples.two_x_times_3)).
  vm_compute. reflexivity.
Defined.

Lemma reverse_permutes (random : nat) (l : list nat) :
  Permutation l (fst (CrossoverExamples.shuffle random l)).
Proof. apply Permutation_rev. Qed.

Lemma lower_end_in_range (a b : Z) (random : nat) :
  (a <= b)%Z -> (a <= fst (CrossoverExamples.uniformInt a b random) <= b)%Z.
Proof. cbn. lia. Qed.

Lemma SelectRandomBranch_selects_witness :
  (Z.of_nat (length (Nodes Examples.two_x_times_3)) < 2 ^ 64)%Z
  /\ existsb CrossoverExamples.IsLeaf (Nodes Examples.two_x_times_3) = true
  /\ SelectRandomBranch nat CrossoverExamples.uniformReal
       CrossoverExamples.shuffle CrossoverExamples.uniformInt
       CrossoverExamples.IsLeaf 0 Examples.two_x_times_3 (Scalar_of_Z 1) 0 5
     = Some (None, 0)
  /\ exists idx random' node,
       SelectRandomBranch nat CrossoverExamples.uniformReal
         CrossoverExamples.shuffle CrossoverExamples.uniformInt
         CrossoverExamples.IsLeaf 0 Examples.two_x_times_3 (Scalar_of_Z 1) 5 5
       = Some (Some idx, random')
       /\ nth_error (Nodes Examples.two_x_times_3) idx = Some node.
Proof.
  split; [vm_compute; reflexivity |]. split; [reflexivity |].
  assert (Hsize : (Z.of_nat (length (Nodes Examples.two_x_times_3)) < 2 ^ 64)%Z)
    by (vm_compute; reflexivity).
  split.
  - apply (SelectRandomBranch_selects nat CrossoverExamples.uniformReal
             CrossoverExamples.shuffle CrossoverExamples.uniformInt
             CrossoverExamples.IsLeaf reverse_permutes lower_end_in_range
             0 Examples.two_x_times_3 (Scalar_of_Z 1) 0 5 Hsize eq_refl).
    left. reflexivity.
  - destruct (SelectRandomBranch_selects nat CrossoverExamples.uniformReal
                CrossoverExamples.shuffle CrossoverExamples.uniformInt
                CrossoverExamples.IsLeaf reverse_permutes lower_end_in_range
                0 Examples.two_x_times_3 (Scalar_of_Z 1) 5 5 Hsize eq_refl)
      as [_ H].
    destruct H as (idx & random' & node & H & Hnode & _);
      [discriminate | discriminate |].
    exists idx, random', node. split; assumption.
Defined.

Lemma SubtreeCrossover_length_witness :
  exists child random',
    SubtreeCrossover_call nat CrossoverExamples.uniformReal
      CrossoverExamples.shuffle CrossoverExamples.uniformInt
      CrossoverExamples.IsLeaf CrossoverExamples.Level
      CrossoverExamples.Tree_Length CrossoverExamples.UpdateNodes
      CrossoverExamples.crossover 0 Examples.x_minus_y Examples.two_x_times_3
    = Some (child, random')
    /\ (child = Examples.x_minus_y
        \/ (Z.of_nat (length (Nodes child))
            <= maxLength CrossoverExamples.crossover)%Z).
Proof.
  destruct (SubtreeCrossover_call nat CrossoverExamples.uniformReal
              CrossoverExamples.shuffle CrossoverExamples.uniformInt
              CrossoverExamples.IsLeaf CrossoverExamples.Level
              CrossoverExamples.Tree_Length CrossoverExamples.UpdateNodes
              CrossoverExamples.crossover 0 Examples.x_minus_y
              Examples.two_x_times_3) as [[child random'] |] eqn:E.
  - exists child, random'. split; [reflexivity |].
    destruct (SubtreeCrossover_length nat CrossoverExamples.uniformReal
                CrossoverExamples.shuffle CrossoverExamples.uniformInt
                CrossoverExamples.IsLeaf reverse_permutes lower_end_in_range
                CrossoverExamples.Level CrossoverExamples.Tree_Length
                CrossoverExamples.UpdateNodes CrossoverExamples.crossover 0
                Examples.x_minus_y Examples.two_x_times_3 child random')
      as [H | (i & j & li & rj & nodes & -> & _ & _ & _ & _ & _ & H)];
      try exact E.
    + reflexivity.
    + vm_compute. split; [discriminate | reflexivity].
    + vm_compute. reflexivity.
    + intros i s Hs.
      do 3 (destruct i as [| i];
            [vm_compute in Hs; inversion Hs; subst; cbn; lia |]).
      destruct i; discriminate.
    + intros s [<- | [<- | [<- | []]]] Hl; cbn in *; congruence.
    + reflexivity.
    + left. exact H.
    + right. exact H.
  - vm_compute in E. discriminate.
Defined.

End Operon.
